(** * SHA-256 single-block hasher: shallow embedding of [main.cpp]

    The program reads one line, rejects it when it is longer than 64
    characters, copies it into a zeroed 64-byte buffer, writes the 0x80
    marker after it (when there is room), assembles 16 big-endian words,
    runs [sha256_transform] once on the standard initial state and prints the
    eight state words in hexadecimal.

    Words are modelled as [Z] with the 32-bit wrap-around written out,
    [std::array]s as lists accessed with stdpp's lookup and insert. *)

From Stdlib Require Import ZArith Lia List String Ascii.
From stdpp Require Import base list strings.

Local Open Scope Z_scope.

(** ** 32-bit unsigned arithmetic *)

Module Word32.

Definition modulus : Z := 2 ^ 32.

(** Conversion to [uint32_t]: reduction modulo 2^32. *)
Definition wrap (x : Z) : Z := x mod modulus.

(** [x + y] on [uint32_t]. *)
Definition add (x y : Z) : Z := wrap (x + y).

(** [~x] on [uint32_t]. *)
Definition not (x : Z) : Z := wrap (Z.lnot x).

(** [x << n] on [uint32_t]: the bits shifted past bit 31 are lost. *)
Definition shl (x n : Z) : Z := wrap (Z.shiftl x n).

(** [x >> n] on [uint32_t]. *)
Definition shr (x n : Z) : Z := Z.shiftr x n.

Definition in_range (x : Z) : Prop := 0 <= x < modulus.

(** A shift count is valid for a 32-bit operand when it is below 32. *)
Definition shift_ok (n : Z) : bool := (0 <=? n) && (n <? 32).

End Word32.

Abbreviation add32 := Word32.add.
Abbreviation word := Word32.in_range.

(** ** Round constants and round functions (lines 66-87) *)

(** The table, eight constants per row as in the source. *)
Definition K : list Z :=
  [0x428a2f98; 0x71374491; 0xb5c0fbcf; 0xe9b5dba5; 0x3956c25b; 0x59f111f1; 0x923f82a4; 0xab1c5ed5]
  ++ [0xd807aa98; 0x12835b01; 0x243185be; 0x550c7dc3; 0x72be5d74; 0x80deb1fe; 0x9bdc06a7; 0xc19bf174]
  ++ [0xe49b69c1; 0xefbe4786; 0x0fc19dc6; 0x240ca1cc; 0x2de92c6f; 0x4a7484aa; 0x5cb0a9dc; 0x76f988da]
  ++ [0x983e5152; 0xa831c66d; 0xb00327c8; 0xbf597fc7; 0xc6e00bf3; 0xd5a79147; 0x06ca6351; 0x14292967]
  ++ [0x27b70a85; 0x2e1b2138; 0x4d2c6dfc; 0x53380d13; 0x650a7354; 0x766a0abb; 0x81c2c92e; 0x92722c85]
  ++ [0xa2bfe8a1; 0xa81a664b; 0xc24b8b70; 0xc76c51a3; 0xd192e819; 0xd6990624; 0xf40e3585; 0x106aa070]
  ++ [0x19a4c116; 0x1e376c08; 0x2748774c; 0x34b0bcb5; 0x391c0cb3; 0x4ed8aa4a; 0x5b9cca4f; 0x682e6ff3]
  ++ [0x748f82ee; 0x78a5636f; 0x84c87814; 0x8cc70208; 0x90befffa; 0xa4506ceb; 0xbef9a3f7; 0xc67178f2].

Definition Ch (x y z : Z) : Z :=
  Z.lxor (Z.land x y) (Z.land (Word32.not x) z).

Definition Maj (x y z : Z) : Z :=
  Z.lxor (Z.lxor (Z.land x y) (Z.land x z)) (Z.land y z).

Definition SHR (x n : Z) : Z := Word32.shr x n.

(** [(x >> n) | (x << (32 - n))]; the count [32 - n] is itself computed on
    [uint32_t]. *)
Definition ROTR (x n : Z) : Z :=
  Z.lor (Word32.shr x n) (Word32.shl x (Word32.wrap (32 - n))).

Definition Sigma0 (x : Z) : Z :=
  Z.lxor (Z.lxor (ROTR x 2) (ROTR x 13)) (ROTR x 22).

Definition Sigma1 (x : Z) : Z :=
  Z.lxor (Z.lxor (ROTR x 6) (ROTR x 11)) (ROTR x 25).

Definition sigma0 (x : Z) : Z :=
  Z.lxor (Z.lxor (ROTR x 7) (ROTR x 18)) (SHR x 3).

Definition sigma1 (x : Z) : Z :=
  Z.lxor (Z.lxor (ROTR x 17) (ROTR x 19)) (SHR x 10).

(** ** [sha256_transform] (lines 91-133) *)

(** One iteration of the schedule loop: [W[t] = sigma1(W[t-2]) + W[t-7] +
    sigma0(W[t-15]) + W[t-16]], the sum taken left to right on [uint32_t]. *)
Definition schedule_step (W : list Z) (t : nat) : list Z :=
  <[ t := add32 (add32 (add32 (sigma1 (W !!! (t - 2)%nat)) (W !!! (t - 7)%nat))
                       (sigma0 (W !!! (t - 15)%nat)))
                (W !!! (t - 16)%nat) ]> W.

(** The loop [for t = 16 .. 63] run on an array [W]. *)
Definition schedule_from (W : list Z) : list Z :=
  foldl schedule_step W (seq 16 48).

(** [std::copy(src.begin(), src.end(), dst.begin())] and
    [std::memcpy(dst, src, |src|)]: the first [|src|] cells of [dst] are
    overwritten. *)
Definition copy_into (dst src : list Z) : list Z :=
  src ++ drop (length src) dst.

(** [W] is declared without an initialiser and [std::copy] fills cells 0..15
    from the block.  Cells 16..63 are each written before they are read
    (lemma [schedule_from_tail_irrelevant] below), so their initial content is
    taken to be 0 here. *)
Definition message_schedule (block : list Z) : list Z :=
  schedule_from (copy_into (replicate 64 0) block).

(** The working variables [a .. h]. *)
Record working : Type := Working {
  va : Z; vb : Z; vc : Z; vd : Z; ve : Z; vf : Z; vg : Z; vh : Z
}.

(** One iteration of the main loop. *)
Definition round (W : list Z) (v : working) (t : nat) : working :=
  let T1 := add32 (add32 (add32 (add32 (vh v) (Sigma1 (ve v)))
                                (Ch (ve v) (vf v) (vg v)))
                         (K !!! t))
                  (W !!! t) in
  let T2 := add32 (Sigma0 (va v)) (Maj (va v) (vb v) (vc v)) in
  {| vh := vg v;
     vg := vf v;
     vf := ve v;
     ve := add32 (vd v) T1;
     vd := vc v;
     vc := vb v;
     vb := va v;
     va := add32 T1 T2 |}.

Definition load_working (state : list Z) : working :=
  {| va := state !!! 0%nat; vb := state !!! 1%nat; vc := state !!! 2%nat;
     vd := state !!! 3%nat; ve := state !!! 4%nat; vf := state !!! 5%nat;
     vg := state !!! 6%nat; vh := state !!! 7%nat |}.

Definition rounds (W : list Z) (v : working) : working :=
  foldl (round W) v (seq 0 64).

(** [state[i] += x]. *)
Definition add_into (i : nat) (x : Z) (state : list Z) : list Z :=
  <[ i := add32 (state !!! i) x ]> state.

Definition accumulate (v : working) (state : list Z) : list Z :=
  add_into 7 (vh v) (add_into 6 (vg v) (add_into 5 (vf v) (add_into 4 (ve v)
  (add_into 3 (vd v) (add_into 2 (vc v) (add_into 1 (vb v) (add_into 0 (va v)
  state))))))).

(** Lines 100-132: the part of the transform that consumes the schedule. *)
Definition compress (state W : list Z) : list Z :=
  accumulate (rounds W (load_working state)) state.

Definition sha256_transform (state block : list Z) : list Z :=
  compress state (message_schedule block).

(** ** [main] (lines 137-184) *)

(** The values of a [uint8_t]. *)
Definition byte_range (b : Z) : Prop := 0 <= b < 256.

(** The characters of a [std::string] as unsigned bytes. *)
Definition string_bytes (s : string) : list Z :=
  map (fun c => Z.of_N (N_of_ascii c)) (list_ascii_of_string s).

(** Lines 149-158: the 64-byte buffer handed to block assembly.  The guard
    of line 143 lets only inputs of at most 64 characters reach this code. *)
Definition padded_bytes (input : list Z) : list Z :=
  let bytes := replicate 64 0 in
  let bytes := copy_into bytes input in
  if (length input <? 64)%nat then <[ length input := 0x80 ]> bytes else bytes.

(** [block[i] |= bytes[4*i+j] << (24 - 8*j)]. *)
Definition or_byte (bytes : list Z) (i : nat) (block : list Z) (j : nat) : list Z :=
  <[ i := Z.lor (block !!! i)
                (Word32.wrap (Z.shiftl (bytes !!! (4 * i + j)%nat)
                                       (24 - 8 * Z.of_nat j))) ]> block.

(** What the four inner iterations [j = 0 .. 3] [or] into word [i]. *)
Definition assembled_word (bytes : list Z) (i : nat) : Z :=
  Z.lor (Word32.wrap (Z.shiftl (bytes !!! (4 * i + 0)%nat) 24))
    (Z.lor (Word32.wrap (Z.shiftl (bytes !!! (4 * i + 1)%nat) 16))
       (Z.lor (Word32.wrap (Z.shiftl (bytes !!! (4 * i + 2)%nat) 8))
              (Word32.wrap (Z.shiftl (bytes !!! (4 * i + 3)%nat) 0)))).

(** Lines 161-166.  [block] is declared without an initialiser and updated
    with [|=]: [block0] is whatever its storage held before. *)
Definition assemble_block (block0 bytes : list Z) : list Z :=
  foldl (fun block i => foldl (or_byte bytes i) block (seq 0 4)) block0 (seq 0 16).

Definition initial_state : list Z :=
  [ 0x6a09e667; 0xbb67ae85; 0x3c6ef372; 0xa54ff53a;
    0x510e527f; 0x9b05688c; 0x1f83d9ab; 0x5be0cd19 ].

(** The state after the single call of [sha256_transform] in [main]. *)
Definition final_state (block0 : list Z) (input : string) : list Z :=
  sha256_transform initial_state
    (assemble_block block0 (padded_bytes (string_bytes input))).

(** [std::hex] formatting of an unsigned value, lowercase, no leading zeros.
    A [uint32_t] has at most eight hexadecimal digits. *)
Definition lowercase_hex : list ascii :=
  list_ascii_of_string "0123456789abcdef".

Definition hex_digit (d : Z) : ascii :=
  nth (Z.to_nat d) lowercase_hex "0"%char.

Fixpoint hex_digits (fuel : nat) (n : Z) : list ascii :=
  match fuel with
  | O => []
  | S fuel' =>
      if n <? 16 then [hex_digit n]
      else hex_digits fuel' (n / 16) ++ [hex_digit (n mod 16)]
  end.

(** Reading hexadecimal digits back: the position of a digit among
    0..9a..f, and the number a digit string denotes. *)
Fixpoint digit_position (c : ascii) (digits : list ascii) : nat :=
  match digits with
  | [] => 0
  | d :: digits' => if Ascii.eqb c d then 0 else S (digit_position c digits')
  end.

Definition hex_value (digits : list ascii) : Z :=
  fold_left (fun acc c => acc * 16 + Z.of_nat (digit_position c lowercase_hex))
            digits 0.

(** [std::setw(w) << std::setfill(c)]: pad on the left up to width [w]. *)
Definition setw_fill (w : nat) (c : ascii) (digits : list ascii) : list ascii :=
  replicate (w - length digits) c ++ digits.

Definition print_word (w : Z) : list ascii :=
  setw_fill 8 "0"%char (hex_digits 8 w).

(** Lines 178-180. *)
Definition print_state (state : list Z) : string :=
  string_of_list_ascii (concat (map print_word state)).

Definition newline : string := String (ascii_of_nat 10) EmptyString.

Definition prompt : string :=
  "Enter a string to hash (up to 64 characters): ".

Definition too_long_message : string :=
  "Input is too long. Please enter a string of 64 characters or less."
  +:+ newline.

(** The two ways [main] ends: the guard of line 143 rejects the input, or the
    state is hashed and printed. *)
Inductive outcome : Type :=
  | Rejected
  | Hashed (state : list Z).

Definition run (block0 : list Z) (input : string) : outcome :=
  if (64 <? String.length input)%nat then Rejected
  else Hashed (final_state block0 input).

(** [main]: exit code and the text written to standard output, for the line
    [input] read from standard input. *)
Definition main (block0 : list Z) (input : string) : Z * string :=
  match run block0 input with
  | Rejected => (1, prompt +:+ too_long_message)
  | Hashed state => (0, prompt +:+ print_state state +:+ newline)
  end.


(** ** [sha256_transform] as a store transformer

    The objects the function can reach: the caller's two arrays, passed by
    reference, and its own locals.  Each statement is a function on this
    store. *)

Record store : Type := Store {
  s_state : list Z;
  s_block : list Z;
  s_W : list Z;
  s_vars : working
}.

Module Stmt.

Definition set_state (state : list Z) (s : store) : store :=
  {| s_state := state; s_block := s_block s; s_W := s_W s; s_vars := s_vars s |}.

Definition set_W (W : list Z) (s : store) : store :=
  {| s_state := s_state s; s_block := s_block s; s_W := W; s_vars := s_vars s |}.

Definition set_vars (v : working) (s : store) : store :=
  {| s_state := s_state s; s_block := s_block s; s_W := s_W s; s_vars := v |}.

(** [std::copy(block.begin(), block.end(), W.begin());] *)
Definition copy_block (s : store) : store :=
  set_W (copy_into (s_W s) (s_block s)) s.

(** [W[t] = sigma1(W[t - 2]) + W[t - 7] + sigma0(W[t - 15]) + W[t - 16];] *)
Definition assign_W (s : store) (t : nat) : store :=
  set_W (schedule_step (s_W s) t) s.

(** [for (t = 16; t < 64; ++t) ...] *)
Definition extend (s : store) : store :=
  foldl assign_W s (seq 16 48).

(** [auto a = state[0]; ... auto h = state[7];] *)
Definition load (s : store) : store :=
  set_vars (load_working (s_state s)) s.

(** The body of the main loop: [T1], [T2] and the eight assignments. *)
Definition round_body (s : store) (t : nat) : store :=
  set_vars (round (s_W s) (s_vars s) t) s.

(** [for (t = 0; t < 64; ++t) { ... }] *)
Definition main_loop (s : store) : store :=
  foldl round_body s (seq 0 64).

(** [state[i] += x;] for the working variable [x]. *)
Definition add_state (i : nat) (x : working -> Z) (s : store) : store :=
  set_state (add_into i (x (s_vars s)) (s_state s)) s.

(** [state[0] += a; ... state[7] += h;] *)
Definition add_back (s : store) : store :=
  add_state 7 vh (add_state 6 vg (add_state 5 vf (add_state 4 ve
  (add_state 3 vd (add_state 2 vc (add_state 1 vb (add_state 0 va s))))))).

Definition sha256_transform (s : store) : store :=
  add_back (main_loop (load (extend (copy_block s)))).

End Stmt.

(** ** Checked evaluation of the rotations

    [None] stands for a shift whose count is not below the operand width
    (undefined in C++); the list is the sequence of rotation amounts passed
    to [ROTR], in call order. *)

Module Checked.

Definition M (A : Type) : Type := option (A * list Z).

#[export] Instance M_ret : MRet M := fun A a => Some (a, []).

#[export] Instance M_bind : MBind M := fun A B f m =>
  match m with
  | None => None
  | Some (a, l) =>
      match f a with
      | None => None
      | Some (b, l') => Some (b, l ++ l')
      end
  end.

Definition shr (x n : Z) : M Z :=
  if Word32.shift_ok n then Some (Word32.shr x n, []) else None.

Definition shl (x n : Z) : M Z :=
  if Word32.shift_ok n then Some (Word32.shl x n, []) else None.

Definition SHR (x n : Z) : M Z := shr x n.

Definition ROTR (x n : Z) : M Z :=
  match shr x n, shl x (Word32.wrap (32 - n)) with
  | Some (lo, _), Some (hi, _) => Some (Z.lor lo hi, [n])
  | _, _ => None
  end.

Definition Sigma0 (x : Z) : M Z :=
  r1 ← ROTR x 2; r2 ← ROTR x 13; r3 ← ROTR x 22;
  mret (Z.lxor (Z.lxor r1 r2) r3).

Definition Sigma1 (x : Z) : M Z :=
  r1 ← ROTR x 6; r2 ← ROTR x 11; r3 ← ROTR x 25;
  mret (Z.lxor (Z.lxor r1 r2) r3).

Definition sigma0 (x : Z) : M Z :=
  r1 ← ROTR x 7; r2 ← ROTR x 18; r3 ← SHR x 3;
  mret (Z.lxor (Z.lxor r1 r2) r3).

Definition sigma1 (x : Z) : M Z :=
  r1 ← ROTR x 17; r2 ← ROTR x 19; r3 ← SHR x 10;
  mret (Z.lxor (Z.lxor r1 r2) r3).

Fixpoint for_each {A B : Type} (body : A -> B -> M A) (a : A) (l : list B) : M A :=
  match l with
  | [] => mret a
  | t :: l' => a' ← body a t; for_each body a' l'
  end.

Definition schedule_step (W : list Z) (t : nat) : M (list Z) :=
  s1 ← sigma1 (W !!! (t - 2)%nat);
  s0 ← sigma0 (W !!! (t - 15)%nat);
  mret (<[ t := add32 (add32 (add32 s1 (W !!! (t - 7)%nat)) s0)
                      (W !!! (t - 16)%nat) ]> W).

Definition round (W : list Z) (v : working) (t : nat) : M working :=
  S1 ← Sigma1 (ve v);
  S0 ← Sigma0 (va v);
  let T1 := add32 (add32 (add32 (add32 (vh v) S1) (Ch (ve v) (vf v) (vg v)))
                         (K !!! t))
                  (W !!! t) in
  let T2 := add32 S0 (Maj (va v) (vb v) (vc v)) in
  mret {| vh := vg v; vg := vf v; vf := ve v; ve := add32 (vd v) T1;
          vd := vc v; vc := vb v; vb := va v; va := add32 T1 T2 |}.

Definition sha256_transform (state block : list Z) : M (list Z) :=
  W ← for_each schedule_step (copy_into (replicate 64 0) block) (seq 16 48);
  v ← for_each (round W) (load_working state) (seq 0 64);
  mret (accumulate v state).

End Checked.

(** The rotation amounts that appear as second argument of [ROTR] in the
    source. *)
Definition rotation_amounts : list Z := [2; 6; 7; 11; 13; 17; 18; 19; 22; 25].

(** ** The functions as the specification words them *)

Module Spec.

(** Right rotation of a 32-bit word by [n] places: the low [n] bits move to
    the top. *)
Definition rotr (x n : Z) : Z := x / 2 ^ n + (x mod 2 ^ n) * 2 ^ (32 - n).

Definition shr (x n : Z) : Z := x / 2 ^ n.

Definition NOT (x : Z) : Z := 2 ^ 32 - 1 - x.

Definition Ch (x y z : Z) : Z := Z.lxor (Z.land x y) (Z.land (NOT x) z).

Definition Maj (x y z : Z) : Z :=
  Z.lxor (Z.lxor (Z.land x y) (Z.land x z)) (Z.land y z).

Definition Sigma0 (x : Z) : Z := Z.lxor (Z.lxor (rotr x 2) (rotr x 13)) (rotr x 22).
Definition Sigma1 (x : Z) : Z := Z.lxor (Z.lxor (rotr x 6) (rotr x 11)) (rotr x 25).
Definition sigma0 (x : Z) : Z := Z.lxor (Z.lxor (rotr x 7) (rotr x 18)) (shr x 3).
Definition sigma1 (x : Z) : Z := Z.lxor (Z.lxor (rotr x 17) (rotr x 19)) (shr x 10).

Definition T1 (v : working) (Kt Wt : Z) : Z :=
  (vh v + Sigma1 (ve v) + Ch (ve v) (vf v) (vg v) + Kt + Wt) mod 2 ^ 32.

Definition T2 (v : working) : Z :=
  (Sigma0 (va v) + Maj (va v) (vb v) (vc v)) mod 2 ^ 32.

(** The shift of round [t]. *)
Definition round (W : list Z) (t : nat) (v : working) : working :=
  let t1 := T1 v (nth t K 0) (nth t W 0) in
  let t2 := T2 v in
  {| va := (t1 + t2) mod 2 ^ 32; vb := va v; vc := vb v; vd := vc v;
     ve := (vd v + t1) mod 2 ^ 32; vf := ve v; vg := vf v; vh := vg v |}.

(** The working variables before round 0: the eight state words. *)
Definition initial_working (state : list Z) : working :=
  {| va := nth 0 state 0; vb := nth 1 state 0; vc := nth 2 state 0;
     vd := nth 3 state 0; ve := nth 4 state 0; vf := nth 5 state 0;
     vg := nth 6 state 0; vh := nth 7 state 0 |}.

(** The working variables after rounds [0 .. n-1]. *)
Fixpoint after_rounds (n : nat) (W : list Z) (v0 : working) : working :=
  match n with
  | O => v0
  | S n' => round W n' (after_rounds n' W v0)
  end.

Definition working_list (v : working) : list Z :=
  [va v; vb v; vc v; vd v; ve v; vf v; vg v; vh v].

(** Each working variable added, modulo 2^32, into its state word. *)
Definition accumulated (state : list Z) (v : working) : list Z :=
  zip_with (fun s x => (s + x) mod 2 ^ 32) state (working_list v).

(** The value of a byte sequence read as a big-endian integer. *)
Definition be_decode (bytes : list Z) : Z :=
  fold_left (fun acc b => acc * 256 + b) bytes 0.

(** The last eight bytes of a sequence. *)
Definition final8 (bytes : list Z) : list Z :=
  drop (length bytes - 8) bytes.

(** Big-endian assembly of four bytes, most significant first. *)
Definition be_word (b0 b1 b2 b3 : Z) : Z :=
  Z.shiftl b0 24 + Z.shiftl b1 16 + Z.shiftl b2 8 + b3.

End Spec.


(** ** Loop invariant of the schedule loop

    The array [W] when the loop is about to run iteration [k]: cells 0..15
    hold the block, cells below [k] hold words, and every cell from 16 up to
    [k] satisfies the recurrence of the specification. *)

Definition schedule_inv (block : list Z) (k : nat) (W : list Z) : Prop :=
  length W = 64%nat
  /\ take 16 W = block
  /\ Forall word (take k W)
  /\ forall t : nat, (16 <= t < k)%nat ->
       W !!! t = (Spec.sigma1 (W !!! (t - 2)%nat) + W !!! (t - 7)%nat
                  + Spec.sigma0 (W !!! (t - 15)%nat) + W !!! (t - 16)%nat)
                 mod 2 ^ 32.

(** * Properties *)

(** ** Word arithmetic *)

Section WordFacts.

Lemma modulus_eq : Word32.modulus = 4294967296.
Proof. reflexivity. Qed.

Lemma wrap_word (x : Z) : word (Word32.wrap x).
Proof.
  unfold Word32.in_range, Word32.wrap. apply Z.mod_pos_bound. reflexivity.
Qed.

Lemma wrap_small (x : Z) : word x -> Word32.wrap x = x.
Proof. intros Hx. apply Z.mod_small. exact Hx. Qed.

Lemma add32_word (x y : Z) : word (add32 x y).
Proof. apply wrap_word. Qed.

Lemma add32_mod (x y : Z) : add32 x y = (x + y) mod 2 ^ 32.
Proof. reflexivity. Qed.

(** A word has no bit at or above position 32. *)
Lemma word_bits_high (x i : Z) : word x -> 32 <= i -> Z.testbit x i = false.
Proof.
  intros Hx Hi. rewrite <- (wrap_small x Hx). unfold Word32.wrap, Word32.modulus.
  rewrite Z.testbit_mod_pow2 by lia.
  destruct (Z.ltb_spec i 32); [lia | reflexivity].
Qed.

Lemma word_of_bits (x : Z) :
  0 <= x -> (forall i, 32 <= i -> Z.testbit x i = false) -> word x.
Proof.
  intros Hx Hb. split; [exact Hx |].
  destruct (Z.eq_dec x 0) as [-> | Hne]; [reflexivity |].
  assert (Hpos : 0 < x) by lia.
  apply Z.log2_lt_pow2; [exact Hpos |].
  destruct (Z.lt_ge_cases (Z.log2 x) 32) as [Hlt | Hge]; [exact Hlt |].
  pose proof (Z.bit_log2 x Hpos) as Hbit.
  rewrite (Hb _ Hge) in Hbit. discriminate.
Qed.

Lemma land_word (x y : Z) : word x -> 0 <= y -> word (Z.land x y).
Proof.
  intros Hx Hy. apply word_of_bits.
  - apply Z.land_nonneg. left. apply Hx.
  - intros i Hi. rewrite Z.land_spec, (word_bits_high x i Hx Hi). reflexivity.
Qed.

Lemma lor_word (x y : Z) : word x -> word y -> word (Z.lor x y).
Proof.
  intros Hx Hy. apply word_of_bits.
  - apply Z.lor_nonneg. split; [apply Hx | apply Hy].
  - intros i Hi.
    rewrite Z.lor_spec, (word_bits_high x i Hx Hi), (word_bits_high y i Hy Hi).
    reflexivity.
Qed.

Lemma lxor_word (x y : Z) : word x -> word y -> word (Z.lxor x y).
Proof.
  intros Hx Hy. apply word_of_bits.
  - apply Z.lxor_nonneg. split; intros _; [apply Hy | apply Hx].
  - intros i Hi.
    rewrite Z.lxor_spec, (word_bits_high x i Hx Hi), (word_bits_high y i Hy Hi).
    reflexivity.
Qed.

Lemma shr_word (x n : Z) : word x -> 0 <= n -> word (Word32.shr x n).
Proof.
  intros Hx Hn. unfold Word32.shr. rewrite Z.shiftr_div_pow2 by exact Hn.
  destruct Hx as [H0 H1]. split.
  - apply Z.div_pos; [exact H0 | apply Z.pow_pos_nonneg; lia].
  - apply Z.le_lt_trans with (m := x); [| exact H1].
    apply Z.div_le_upper_bound; [apply Z.pow_pos_nonneg; lia |].
    assert (1 <= 2 ^ n) by (apply Z.pow_pos_nonneg with (a := 2) in Hn; lia).
    nia.
Qed.

(** [~x] on a word is its complement to 2^32 - 1. *)
Lemma not_complement (x : Z) : word x -> Word32.not x = Spec.NOT x.
Proof.
  intros Hx. unfold Word32.not, Spec.NOT, Word32.wrap, Z.lnot.
  rewrite <- Z.sub_1_r.
  unfold Word32.in_range in Hx. rewrite modulus_eq in *.
  change (2 ^ 32) with 4294967296.
  symmetry. apply Z.mod_unique with (q := -1); lia.
Qed.

End WordFacts.

(** ** The rotation *)

Section Rotation.

Variables (x n : Z).
Hypothesis Hx : word x.
Hypothesis Hn : 0 < n < 32.

Lemma rotation_count : Word32.wrap (32 - n) = 32 - n.
Proof. apply wrap_small. unfold Word32.in_range. rewrite modulus_eq. lia. Qed.

Lemma rotation_counts_ok :
  Word32.shift_ok n = true /\ Word32.shift_ok (Word32.wrap (32 - n)) = true.
Proof.
  rewrite rotation_count. unfold Word32.shift_ok.
  split; apply andb_true_intro; split;
    first [apply Z.leb_le | apply Z.ltb_lt]; lia.
Qed.

(** Bit [i] of the rotated word is bit [(i + n) mod 32] of [x]. *)
Lemma ROTR_bits (i : Z) :
  0 <= i < 32 -> Z.testbit (ROTR x n) i = Z.testbit x ((i + n) mod 32).
Proof.
  intros Hi. unfold ROTR, Word32.shr, Word32.shl. rewrite rotation_count.
  unfold Word32.wrap, Word32.modulus.
  rewrite Z.lor_spec, Z.shiftr_spec, Z.testbit_mod_pow2, Z.shiftl_spec by lia.
  destruct (Z.ltb_spec i 32) as [_ | ?]; [| lia]. cbn [andb].
  destruct (Z.lt_ge_cases (i + n) 32) as [Hlo | Hhi].
  - rewrite (Z.testbit_neg_r x (i - (32 - n))) by lia.
    rewrite Z.mod_small by lia. apply orb_false_r.
  - rewrite (word_bits_high x (i + n) Hx Hhi). cbn [orb].
    f_equal. apply Z.mod_unique with (q := 1); lia.
Qed.

Lemma ROTR_word : word (ROTR x n).
Proof.
  unfold ROTR. apply lor_word; [apply shr_word; [exact Hx | lia] | apply wrap_word].
Qed.

(** The two halves of the rotation share no bit. *)
Lemma ROTR_halves_disjoint :
  Z.land (Word32.shr x n) (Word32.shl x (32 - n)) = 0.
Proof.
  apply Z.bits_inj'. intros i Hi.
  unfold Word32.shr, Word32.shl, Word32.wrap, Word32.modulus.
  rewrite Z.land_spec, Z.bits_0, Z.shiftr_spec by lia.
  rewrite Z.testbit_mod_pow2, Z.shiftl_spec by lia.
  destruct (Z.lt_ge_cases (i + n) 32) as [Hlo | Hhi].
  - rewrite (Z.testbit_neg_r x (i - (32 - n))) by lia.
    rewrite andb_false_r. apply andb_false_r.
  - rewrite (word_bits_high x (i + n) Hx Hhi). reflexivity.
Qed.

(** So [|] adds them, and the sum is the rotation. *)
Lemma ROTR_rotr : ROTR x n = Spec.rotr x n.
Proof.
  unfold ROTR, Spec.rotr. rewrite rotation_count.
  rewrite <- Z.lxor_lor, <- Z.add_nocarry_lxor by apply ROTR_halves_disjoint.
  unfold Word32.shr, Word32.shl.
  rewrite Z.shiftr_div_pow2, Z.shiftl_mul_pow2 by lia. f_equal.
  unfold Word32.wrap, Word32.modulus.
  replace (2 ^ 32) with (2 ^ n * 2 ^ (32 - n))
    by (rewrite <- Z.pow_add_r by lia; f_equal; lia).
  apply Z.mul_mod_distr_r; apply Z.pow_nonzero; lia.
Qed.

End Rotation.

(** ** The round functions agree with their specification *)

Section RoundFunctions.

Variable x : Z.
Hypothesis Hx : word x.

Lemma Ch_spec (y z : Z) : Ch x y z = Spec.Ch x y z.
Proof. unfold Ch, Spec.Ch. rewrite not_complement by exact Hx. reflexivity. Qed.

Lemma SHR_spec (n : Z) : 0 <= n -> SHR x n = Spec.shr x n.
Proof. intros Hn. apply Z.shiftr_div_pow2. exact Hn. Qed.

Lemma Sigma0_spec : Sigma0 x = Spec.Sigma0 x.
Proof. unfold Sigma0, Spec.Sigma0. rewrite !(ROTR_rotr x) by (exact Hx || lia). reflexivity. Qed.

Lemma Sigma1_spec : Sigma1 x = Spec.Sigma1 x.
Proof. unfold Sigma1, Spec.Sigma1. rewrite !(ROTR_rotr x) by (exact Hx || lia). reflexivity. Qed.

Lemma sigma0_spec : sigma0 x = Spec.sigma0 x.
Proof.
  unfold sigma0, Spec.sigma0.
  rewrite !(ROTR_rotr x), SHR_spec by (exact Hx || lia). reflexivity.
Qed.

Lemma sigma1_spec : sigma1 x = Spec.sigma1 x.
Proof.
  unfold sigma1, Spec.sigma1.
  rewrite !(ROTR_rotr x), SHR_spec by (exact Hx || lia). reflexivity.
Qed.

End RoundFunctions.

Lemma Maj_spec (x y z : Z) : Maj x y z = Spec.Maj x y z.
Proof. reflexivity. Qed.

(** ** Array reads *)

Lemma lookup_total_nth (l : list Z) (i : nat) :
  (i < length l)%nat -> l !!! i = nth i l 0.
Proof.
  intros Hi. rewrite list_lookup_total_alt, nth_lookup.
  destruct (lookup_lt_is_Some_2 l i Hi) as [y ->]. reflexivity.
Qed.

Lemma Forall_lookup_total (P : Z -> Prop) (l : list Z) (i : nat) :
  Forall P l -> (i < length l)%nat -> P (l !!! i).
Proof.
  intros Hall Hi. destruct (lookup_lt_is_Some_2 l i Hi) as [y Hy].
  rewrite (list_lookup_total_correct l i y Hy).
  exact (proj1 (Forall_lookup P l) Hall i y Hy).
Qed.

(** Left-to-right wrapped sums are the sum taken modulo 2^32. *)
Lemma add32_sum4 (p q r s : Z) :
  add32 (add32 (add32 p q) r) s = (p + q + r + s) mod 2 ^ 32.
Proof.
  unfold Word32.add, Word32.wrap, Word32.modulus.
  repeat (rewrite Zplus_mod_idemp_l || rewrite <- Z.add_assoc).
  reflexivity.
Qed.

Lemma add32_sum5 (p q r s u : Z) :
  add32 (add32 (add32 (add32 p q) r) s) u = (p + q + r + s + u) mod 2 ^ 32.
Proof.
  unfold Word32.add, Word32.wrap, Word32.modulus.
  repeat (rewrite Zplus_mod_idemp_l || rewrite <- Z.add_assoc).
  reflexivity.
Qed.

(** ** The compression loop *)

Section Compression.

Variable W : list Z.
Hypothesis HW : length W = 64%nat.

Lemma round_spec (v : working) (t : nat) :
  word (va v) -> word (ve v) -> (t < 64)%nat ->
  round W v t = Spec.round W t v.
Proof.
  intros Ha He Ht. unfold round, Spec.round, Spec.T1, Spec.T2. cbv zeta.
  rewrite (Sigma1_spec _ He), (Sigma0_spec _ Ha), (Ch_spec _ He), Maj_spec.
  rewrite (lookup_total_nth K t) by exact Ht.
  rewrite (lookup_total_nth W t) by (rewrite HW; exact Ht).
  rewrite (add32_sum5 (vh v)). reflexivity.
Qed.

Lemma round_keeps_words (v : working) (t : nat) :
  word (va (round W v t)) /\ word (ve (round W v t)).
Proof. split; apply add32_word. Qed.

(** After [n] iterations the loop has computed the specification's rounds
    [0 .. n-1], and [a] and [e] are words. *)
Lemma rounds_prefix (v0 : working) (n : nat) :
  word (va v0) -> word (ve v0) -> (n <= 64)%nat ->
  foldl (round W) v0 (seq 0 n) = Spec.after_rounds n W v0
  /\ word (va (foldl (round W) v0 (seq 0 n)))
  /\ word (ve (foldl (round W) v0 (seq 0 n))).
Proof.
  intros Ha He. induction n as [| n IH]; intros Hn.
  - cbn. auto.
  - destruct IH as (Heq & Ha' & He'); [lia |].
    rewrite seq_S, foldl_app. cbn [foldl Nat.add Spec.after_rounds].
    split; [| apply round_keeps_words].
    rewrite round_spec by (assumption || lia). rewrite Heq. reflexivity.
Qed.

End Compression.

Lemma accumulate_spec (state : list Z) (v : working) :
  length state = 8%nat -> accumulate v state = Spec.accumulated state v.
Proof.
  intros Hlen.
  do 8 (destruct state as [| ? state]; [discriminate Hlen |]).
  destruct state; [| discriminate Hlen].
  reflexivity.
Qed.

(** ** The schedule loop *)

Section Schedule.

Variable block : list Z.
Hypothesis Hlen : length block = 16%nat.
Hypothesis Hwords : Forall word block.

Lemma schedule_inv_word (k : nat) (W : list Z) (i : nat) :
  schedule_inv block k W -> (i < k <= 64)%nat -> word (W !!! i).
Proof.
  intros (HlenW & _ & Hall & _) Hi.
  rewrite <- (lookup_total_take_lt W k i) by lia.
  apply Forall_lookup_total; [exact Hall |].
  rewrite length_take. lia.
Qed.

Lemma schedule_inv_init (W0 : list Z) :
  length W0 = 64%nat -> schedule_inv block 16 (copy_into W0 block).
Proof.
  intros HW0. unfold schedule_inv, copy_into.
  rewrite length_app, length_drop, Hlen, HW0.
  rewrite (take_app_length' block _ 16) by (symmetry; exact Hlen).
  repeat split; [exact Hwords | intros t Ht; lia].
Qed.

Lemma schedule_step_inv (k : nat) (W : list Z) :
  (16 <= k < 64)%nat ->
  schedule_inv block k W -> schedule_inv block (S k) (schedule_step W k).
Proof.
  intros Hk Hinv.
  pose proof (schedule_inv_word k W) as Hword.
  destruct Hinv as (HlenW & Htake & Hall & Hrec).
  assert (Hinv : schedule_inv block k W) by (repeat split; assumption).
  unfold schedule_step.
  set (v := add32 _ _).
  assert (Hv : v = (Spec.sigma1 (W !!! (k - 2)%nat) + W !!! (k - 7)%nat
                    + Spec.sigma0 (W !!! (k - 15)%nat) + W !!! (k - 16)%nat)
                   mod 2 ^ 32).
  { subst v. rewrite add32_sum4.
    rewrite sigma1_spec, sigma0_spec by (apply Hword; [exact Hinv | lia]).
    reflexivity. }
  repeat split.
  - rewrite length_insert. exact HlenW.
  - rewrite take_insert_ge by lia. exact Htake.
  - rewrite (take_S_r _ k v) by (apply list_lookup_insert_eq; lia).
    rewrite take_insert_ge by lia.
    apply Forall_app_2; [exact Hall |].
    apply Forall_cons; split; [apply add32_word | apply Forall_nil_2].
  - intros t Ht.
    destruct (Nat.eq_dec t k) as [-> | Hne].
    + rewrite list_lookup_total_insert_eq by lia.
      rewrite !list_lookup_total_insert_ne by lia.
      exact Hv.
    + rewrite !list_lookup_total_insert_ne by lia.
      apply Hrec. lia.
Qed.

Lemma schedule_loop_inv (n s : nat) (W : list Z) :
  (16 <= s)%nat -> (s + n <= 64)%nat ->
  schedule_inv block s W ->
  schedule_inv block (s + n) (foldl schedule_step W (seq s n)).
Proof.
  revert s W. induction n as [| n IH]; intros s W Hs Hn Hinv.
  - rewrite Nat.add_0_r. exact Hinv.
  - cbn [seq foldl]. rewrite Nat.add_succ_r, <- Nat.add_succ_l.
    apply IH; [lia | lia |].
    apply schedule_step_inv; [lia | exact Hinv].
Qed.

Lemma schedule_from_inv (W0 : list Z) :
  length W0 = 64%nat ->
  schedule_inv block 64 (schedule_from (copy_into W0 block)).
Proof.
  intros HW0. unfold schedule_from.
  apply (schedule_loop_inv 48 16); [lia | lia |].
  apply schedule_inv_init. exact HW0.
Qed.

Lemma message_schedule_inv : schedule_inv block 64 (message_schedule block).
Proof. apply schedule_from_inv. apply length_replicate. Qed.

(** The invariant at exit determines the array. *)
Lemma schedule_inv_unique (W1 W2 : list Z) :
  schedule_inv block 64 W1 -> schedule_inv block 64 W2 -> W1 = W2.
Proof.
  intros (Hl1 & Ht1 & _ & Hr1) (Hl2 & Ht2 & _ & Hr2).
  assert (Heq : forall i : nat, (i < 64)%nat -> W1 !!! i = W2 !!! i).
  { intros i. induction i as [i IH] using lt_wf_ind. intros Hi.
    destruct (Nat.lt_ge_cases i 16) as [Hlo | Hhi].
    - rewrite <- (lookup_total_take_lt W1 16 i), <- (lookup_total_take_lt W2 16 i) by lia.
      rewrite Ht1, Ht2. reflexivity.
    - rewrite Hr1, Hr2 by lia.
      rewrite (IH (i - 2)%nat), (IH (i - 7)%nat), (IH (i - 15)%nat), (IH (i - 16)%nat)
        by lia.
      reflexivity. }
  apply (list_eq_same_length W1 W2 64 Hl2 Hl1).
  intros i y1 y2 Hi H1 H2.
  rewrite <- (list_lookup_total_correct W1 i y1 H1).
  rewrite <- (list_lookup_total_correct W2 i y2 H2).
  apply Heq. exact Hi.
Qed.

(** The content [W] has before [std::copy] does not reach the schedule. *)
Lemma schedule_from_tail_irrelevant (W0 : list Z) :
  length W0 = 64%nat ->
  schedule_from (copy_into W0 block) = message_schedule block.
Proof.
  intros HW0. apply schedule_inv_unique.
  - apply schedule_from_inv. exact HW0.
  - apply message_schedule_inv.
Qed.

End Schedule.

(** ** Checked evaluation *)

Section CheckedFacts.

Lemma checked_ROTR (x n : Z) :
  0 < n < 32 -> Checked.ROTR x n = Some (ROTR x n, [n]).
Proof.
  intros Hn. destruct (rotation_counts_ok n Hn) as [H1 H2].
  unfold Checked.ROTR, Checked.shr, Checked.shl. rewrite H1, H2. reflexivity.
Qed.

(** [ROTR] is defined exactly for the amounts 1..31. *)
Lemma checked_ROTR_defined (x n : Z) :
  word n -> (Checked.ROTR x n <> None <-> 1 <= n <= 31).
Proof.
  intros Hw. split.
  - intros Hdef. unfold Checked.ROTR, Checked.shr, Checked.shl in Hdef.
    destruct (Word32.shift_ok n) eqn:E1; [| contradiction].
    destruct (Word32.shift_ok (Word32.wrap (32 - n))) eqn:E2; [| contradiction].
    unfold Word32.shift_ok in E1, E2.
    apply andb_prop in E1 as [E1a E1b]. apply andb_prop in E2 as [E2a E2b].
    apply Z.leb_le in E1a. apply Z.ltb_lt in E1b. apply Z.ltb_lt in E2b.
    destruct (Z.eq_dec n 0) as [-> | Hne]; [discriminate E2b | lia].
  - intros Hn. rewrite checked_ROTR by lia. discriminate.
Qed.

Lemma checked_Sigma0 (x : Z) : Checked.Sigma0 x = Some (Sigma0 x, [2; 13; 22]).
Proof. reflexivity. Qed.

Lemma checked_Sigma1 (x : Z) : Checked.Sigma1 x = Some (Sigma1 x, [6; 11; 25]).
Proof. reflexivity. Qed.

Lemma checked_sigma0 (x : Z) : Checked.sigma0 x = Some (sigma0 x, [7; 18]).
Proof. reflexivity. Qed.

Lemma checked_sigma1 (x : Z) : Checked.sigma1 x = Some (sigma1 x, [17; 19]).
Proof. reflexivity. Qed.

Lemma checked_schedule_step (W : list Z) (t : nat) :
  Checked.schedule_step W t = Some (schedule_step W t, [17; 19; 7; 18]).
Proof.
  unfold Checked.schedule_step. rewrite checked_sigma1, checked_sigma0. reflexivity.
Qed.

Lemma checked_round (W : list Z) (v : working) (t : nat) :
  Checked.round W v t = Some (round W v t, [6; 11; 25; 2; 13; 22]).
Proof.
  unfold Checked.round. rewrite checked_Sigma1, checked_Sigma0. reflexivity.
Qed.

(** A loop whose body always succeeds with the same log succeeds, and logs
    the body's log once per iteration. *)
Lemma for_each_pure {A B : Type} (body : A -> B -> Checked.M A) (f : A -> B -> A)
    (lg : list Z) :
  (forall a t, body a t = Some (f a t, lg)) ->
  forall (l : list B) (a : A),
    Checked.for_each body a l = Some (foldl f a l, concat (replicate (length l) lg)).
Proof.
  intros Hbody l. induction l as [| t l IH]; intros a.
  - reflexivity.
  - cbn [Checked.for_each foldl length replicate concat].
    rewrite Hbody. unfold mbind, Checked.M_bind. rewrite IH. reflexivity.
Qed.

Lemma checked_sha256_transform (state block : list Z) :
  Checked.sha256_transform state block =
  Some (sha256_transform state block,
        concat (replicate 48 [17; 19; 7; 18])
        ++ concat (replicate 64 [6; 11; 25; 2; 13; 22])).
Proof.
  unfold Checked.sha256_transform.
  rewrite (for_each_pure _ _ _ checked_schedule_step).
  unfold mbind at 1, Checked.M_bind at 1.
  rewrite (for_each_pure _ _ _ (checked_round _)).
  unfold mbind, Checked.M_bind, mret, Checked.M_ret.
  rewrite !length_seq, app_nil_r.
  unfold sha256_transform, compress, rounds, message_schedule, schedule_from.
  reflexivity.
Qed.

End CheckedFacts.

(** ** The store transformer *)

Section StoreFacts.

(** The schedule loop writes [W] only. *)
Lemma stmt_extend_loop (l : list nat) (s : store) :
  foldl Stmt.assign_W s l = Stmt.set_W (foldl schedule_step (s_W s) l) s.
Proof.
  revert s. induction l as [| t l IH]; intros s; cbn [foldl].
  - destruct s. reflexivity.
  - rewrite IH. reflexivity.
Qed.

(** The main loop writes the working variables only. *)
Lemma stmt_main_loop (l : list nat) (s : store) :
  foldl Stmt.round_body s l
  = Stmt.set_vars (foldl (round (s_W s)) (s_vars s) l) s.
Proof.
  revert s. induction l as [| t l IH]; intros s; cbn [foldl].
  - destruct s. reflexivity.
  - rewrite IH. reflexivity.
Qed.

(** The eight final statements write [state] only. *)
Lemma stmt_add_back (s : store) :
  Stmt.add_back s = Stmt.set_state (accumulate (s_vars s) (s_state s)) s.
Proof. destruct s. reflexivity. Qed.

Lemma stmt_transform (s : store) :
  Stmt.sha256_transform s
  = {| s_state := compress (s_state s)
                    (schedule_from (copy_into (s_W s) (s_block s)));
       s_block := s_block s;
       s_W := schedule_from (copy_into (s_W s) (s_block s));
       s_vars := rounds (schedule_from (copy_into (s_W s) (s_block s)))
                        (load_working (s_state s)) |}.
Proof.
  unfold Stmt.sha256_transform, Stmt.main_loop, Stmt.extend.
  rewrite stmt_add_back, stmt_main_loop, stmt_extend_loop.
  unfold Stmt.load, Stmt.copy_block, Stmt.set_state, Stmt.set_vars, Stmt.set_W.
  cbn [s_state s_block s_W s_vars].
  unfold compress, rounds, schedule_from. reflexivity.
Qed.

Lemma stmt_block_unchanged (s : store) :
  s_block (Stmt.sha256_transform s) = s_block s.
Proof. rewrite stmt_transform. reflexivity. Qed.

Lemma stmt_state (s : store) :
  length (s_block s) = 16%nat -> Forall word (s_block s) ->
  length (s_W s) = 64%nat ->
  s_state (Stmt.sha256_transform s) = sha256_transform (s_state s) (s_block s).
Proof.
  intros Hb Hw HW. rewrite stmt_transform. cbn [s_state].
  rewrite (schedule_from_tail_irrelevant _ Hb Hw _ HW). reflexivity.
Qed.

End StoreFacts.

(** ** The padded buffer (lines 149-158) *)

Lemma length_string_bytes (s : string) :
  length (string_bytes s) = String.length s.
Proof.
  unfold string_bytes. rewrite length_map.
  induction s as [| c s IH]; cbn; congruence.
Qed.

Lemma string_bytes_range (s : string) : Forall byte_range (string_bytes s).
Proof.
  unfold string_bytes. induction s as [| c s IH]; cbn; constructor; [| exact IH].
  pose proof (N_ascii_bounded c). unfold byte_range. lia.
Qed.

Lemma copy_into_zeros (n : nat) (src : list Z) :
  copy_into (replicate n 0) src = src ++ replicate (n - length src) 0.
Proof. unfold copy_into. rewrite drop_replicate. reflexivity. Qed.

(** Fewer than 64 characters: the input, the marker, zeros up to 64 bytes. *)
Lemma padded_bytes_short (input : list Z) :
  (length input < 64)%nat ->
  padded_bytes input = input ++ 0x80 :: replicate (63 - length input) 0.
Proof.
  intros Hlt. unfold padded_bytes. rewrite copy_into_zeros.
  destruct (Nat.ltb_spec (length input) 64) as [_ | Hge]; [| lia].
  rewrite insert_app_r_alt, Nat.sub_diag by lia.
  replace (64 - length input)%nat with (S (63 - length input)) by lia.
  reflexivity.
Qed.

(** Exactly 64 characters: the buffer is the input, without marker. *)
Lemma padded_bytes_full (input : list Z) :
  length input = 64%nat -> padded_bytes input = input.
Proof.
  intros Heq. unfold padded_bytes. rewrite copy_into_zeros, Heq.
  cbn. apply app_nil_r.
Qed.

Lemma length_padded_bytes (input : list Z) :
  (length input <= 64)%nat -> length (padded_bytes input) = 64%nat.
Proof.
  intros Hle. destruct (Nat.eq_dec (length input) 64%nat) as [Heq | Hne].
  - rewrite padded_bytes_full; assumption.
  - rewrite padded_bytes_short by lia.
    rewrite length_app. cbn [length]. rewrite length_replicate. lia.
Qed.

Lemma padded_bytes_range (input : list Z) :
  Forall byte_range input -> Forall byte_range (padded_bytes input).
Proof.
  intros Hin. unfold padded_bytes. rewrite copy_into_zeros.
  assert (Hbuf : Forall byte_range (input ++ replicate (64 - length input) 0)).
  { apply Forall_app_2; [exact Hin |]. apply Forall_replicate. unfold byte_range. lia. }
  destruct (length input <? 64)%nat; [| exact Hbuf].
  apply Forall_insert; [exact Hbuf | unfold byte_range; lia].
Qed.

Lemma be_decode_zeros (n : nat) : Spec.be_decode (replicate n 0) = 0.
Proof.
  unfold Spec.be_decode. induction n as [| n IH]; [reflexivity | exact IH].
Qed.

(** Below 56 characters the last eight bytes of the buffer are zero. *)
Lemma final8_short (input : list Z) :
  (length input < 56)%nat ->
  Spec.final8 (padded_bytes input) = replicate 8 0.
Proof.
  intros Hlt. unfold Spec.final8.
  rewrite length_padded_bytes by lia.
  rewrite padded_bytes_short by lia.
  rewrite drop_app_ge by lia.
  replace (64 - 8 - length input)%nat with (S (55 - length input)) by lia.
  cbn [drop]. rewrite drop_replicate. f_equal. lia.
Qed.

(** ** Block assembly (lines 161-166) *)

Lemma lor_high_low (hi lo k : Z) :
  0 <= k -> 0 <= lo < 2 ^ k -> Z.lor (hi * 2 ^ k) lo = hi * 2 ^ k + lo.
Proof.
  intros Hk Hlo.
  rewrite <- Z.lxor_lor, <- Z.add_nocarry_lxor; try reflexivity;
    apply Z.bits_inj'; intros i Hi;
    rewrite Z.land_spec, Z.bits_0, <- Z.shiftl_mul_pow2 by exact Hk;
    destruct (Z.lt_ge_cases i k) as [Hlt | Hge].
  all: try (rewrite Z.shiftl_spec_low by exact Hlt; reflexivity).
  all: rewrite <- (Z.mod_small lo (2 ^ k)) by exact Hlo;
       rewrite Z.mod_pow2_bits_high by lia; apply andb_false_r.
Qed.

(** The value [or]-ed into word [i] by the four inner iterations. *)
Lemma or_bytes_be_word (b0 b1 b2 b3 : Z) :
  byte_range b0 -> byte_range b1 -> byte_range b2 -> byte_range b3 ->
  Z.lor (Z.lor (Z.lor (Word32.wrap (Z.shiftl b0 24)) (Word32.wrap (Z.shiftl b1 16)))
               (Word32.wrap (Z.shiftl b2 8)))
        (Word32.wrap (Z.shiftl b3 0))
  = Spec.be_word b0 b1 b2 b3.
Proof.
  unfold byte_range, Spec.be_word. intros H0 H1 H2 H3.
  rewrite !Z.shiftl_mul_pow2 by lia.
  change (2 ^ 24) with 16777216. change (2 ^ 16) with 65536.
  change (2 ^ 8) with 256. change (2 ^ 0) with 1.
  rewrite !wrap_small by (unfold Word32.in_range; rewrite modulus_eq; lia).
  replace (b0 * 16777216) with (b0 * 2 ^ 24) by lia.
  rewrite (lor_high_low b0 (b1 * 65536) 24) by lia.
  replace (b0 * 2 ^ 24 + b1 * 65536) with ((b0 * 256 + b1) * 2 ^ 16) by lia.
  rewrite (lor_high_low _ (b2 * 256) 16) by lia.
  replace ((b0 * 256 + b1) * 2 ^ 16 + b2 * 256)
    with ((b0 * 65536 + b1 * 256 + b2) * 2 ^ 8) by lia.
  rewrite (lor_high_low _ (b3 * 1) 8) by lia.
  lia.
Qed.

Section Assembly.

Variable bytes : list Z.

(** The four inner iterations for word [i]. *)
Lemma inner_loop (i : nat) (block : list Z) :
  (i < length block)%nat ->
  foldl (or_byte bytes i) block (seq 0 4) =
  <[ i := Z.lor (block !!! i) (assembled_word bytes i) ]> block.
Proof.
  intros Hi. cbn [seq foldl]. unfold or_byte, assembled_word.
  rewrite !list_lookup_total_insert_eq by (rewrite ?length_insert; exact Hi).
  rewrite !list_insert_insert_eq.
  rewrite <- !Z.lor_assoc. reflexivity.
Qed.

(** After the outer loop has run for [i = 0 .. n-1]. *)
Lemma outer_loop_prefix (block0 : list Z) (n : nat) :
  (n <= length block0)%nat ->
  let block := foldl (fun block i => foldl (or_byte bytes i) block (seq 0 4))
                     block0 (seq 0 n) in
  length block = length block0
  /\ forall i : nat,
       block !!! i = if (i <? n)%nat
                     then Z.lor (block0 !!! i) (assembled_word bytes i)
                     else block0 !!! i.
Proof.
  induction n as [| n IH]; intros Hn; cbv zeta.
  - cbn [seq foldl]. split; [reflexivity | intros i; reflexivity].
  - destruct IH as [Hlen Hget]; [lia |].
    rewrite (seq_S n 0), foldl_app. cbn [foldl Nat.add].
    rewrite inner_loop by (rewrite Hlen; lia).
    split; [rewrite length_insert; exact Hlen |].
    intros i. destruct (Nat.eq_dec i n) as [-> | Hne].
    + rewrite list_lookup_total_insert_eq by (rewrite Hlen; lia).
      rewrite Hget.
      destruct (Nat.ltb_spec n n); [lia |].
      destruct (Nat.ltb_spec n (S n)); [reflexivity | lia].
    + rewrite list_lookup_total_insert_ne by congruence.
      rewrite Hget.
      destruct (Nat.ltb_spec i n), (Nat.ltb_spec i (S n)); (reflexivity || lia).
Qed.

(** Word [i] of the assembled block is the big-endian word of the four
    bytes [or]-ed into what the cell held before. *)
Lemma assemble_block_word (block0 : list Z) (i : nat) :
  length block0 = 16%nat -> length bytes = 64%nat -> Forall byte_range bytes ->
  (i < 16)%nat ->
  assemble_block block0 bytes !!! i =
  Z.lor (block0 !!! i)
        (Spec.be_word (bytes !!! (4 * i)%nat) (bytes !!! (4 * i + 1)%nat)
                      (bytes !!! (4 * i + 2)%nat) (bytes !!! (4 * i + 3)%nat)).
Proof.
  intros Hb Hlen Hrange Hi. unfold assemble_block.
  destruct (outer_loop_prefix block0 16) as [_ Hget]; [lia |].
  rewrite Hget. destruct (Nat.ltb_spec i 16); [| lia].
  f_equal. unfold assembled_word.
  rewrite Nat.add_0_r, !Z.lor_assoc.
  apply or_bytes_be_word; apply Forall_lookup_total; (exact Hrange || lia).
Qed.

Lemma length_assemble_block (block0 : list Z) :
  length block0 = 16%nat -> length (assemble_block block0 bytes) = 16%nat.
Proof.
  intros Hb. unfold assemble_block.
  destruct (outer_loop_prefix block0 16) as [Hlen _]; [lia |].
  rewrite Hlen. exact Hb.
Qed.

End Assembly.

(** ** The final state and its printed form *)

Lemma compress_words (state W : list Z) :
  length state = 8%nat ->
  length (compress state W) = 8%nat /\ Forall word (compress state W).
Proof.
  intros Hlen. unfold compress. rewrite accumulate_spec by exact Hlen.
  do 8 (destruct state as [| ? state]; [discriminate Hlen |]).
  destruct state; [| discriminate Hlen].
  split; [reflexivity |].
  unfold Spec.accumulated. cbn [zip_with Spec.working_list].
  repeat (apply Forall_cons; split; [apply wrap_word |]). apply Forall_nil_2.
Qed.

Lemma length_hex_digits (fuel : nat) (n : Z) :
  (length (hex_digits fuel n) <= fuel)%nat.
Proof.
  revert n. induction fuel as [| fuel IH]; intros n; cbn [hex_digits].
  - reflexivity.
  - destruct (n <? 16).
    + cbn. lia.
    + rewrite length_app. cbn [length]. specialize (IH (n / 16)). lia.
Qed.

Lemma length_print_word (w : Z) : length (print_word w) = 8%nat.
Proof.
  unfold print_word, setw_fill. rewrite length_app, length_replicate.
  pose proof (length_hex_digits 8 w). lia.
Qed.

Lemma hex_digit_lowercase (d : Z) : In (hex_digit d) lowercase_hex.
Proof.
  unfold hex_digit.
  destruct (nth_in_or_default (Z.to_nat d) lowercase_hex "0"%char) as [Hin | ->].
  - exact Hin.
  - left. reflexivity.
Qed.

Lemma hex_digits_lowercase (fuel : nat) (n : Z) :
  Forall (fun c => In c lowercase_hex) (hex_digits fuel n).
Proof.
  revert n. induction fuel as [| fuel IH]; intros n; cbn [hex_digits].
  - apply Forall_nil_2.
  - destruct (n <? 16).
    + apply Forall_cons; split; [apply hex_digit_lowercase | apply Forall_nil_2].
    + apply Forall_app_2; [apply IH |].
      apply Forall_cons; split; [apply hex_digit_lowercase | apply Forall_nil_2].
Qed.

Lemma print_word_lowercase (w : Z) :
  Forall (fun c => In c lowercase_hex) (print_word w).
Proof.
  unfold print_word, setw_fill. apply Forall_app_2.
  - apply Forall_replicate. left. reflexivity.
  - apply hex_digits_lowercase.
Qed.

(** The digits printed for a word denote that word: eight digits are
    enough for every [uint32_t]. *)
Lemma hex_digit_value (d : Z) :
  0 <= d < 16 -> Z.of_nat (digit_position (hex_digit d) lowercase_hex) = d.
Proof.
  intros Hd.
  assert (Hcases : d = 0 \/ d = 1 \/ d = 2 \/ d = 3 \/ d = 4 \/ d = 5 \/ d = 6
                   \/ d = 7 \/ d = 8 \/ d = 9 \/ d = 10 \/ d = 11 \/ d = 12
                   \/ d = 13 \/ d = 14 \/ d = 15) by lia.
  repeat (destruct Hcases as [-> | Hcases]; [reflexivity |]).
  subst d. reflexivity.
Qed.

Lemma hex_value_app (l : list ascii) (c : ascii) :
  hex_value (l ++ [c])
  = hex_value l * 16 + Z.of_nat (digit_position c lowercase_hex).
Proof. unfold hex_value. rewrite fold_left_app. reflexivity. Qed.

Lemma hex_digits_value (fuel : nat) (n : Z) :
  0 <= n < 16 ^ Z.of_nat fuel -> hex_value (hex_digits fuel n) = n.
Proof.
  revert n. induction fuel as [| fuel IH]; intros n Hn.
  - cbn in Hn. cbn. lia.
  - cbn [hex_digits]. destruct (Z.ltb_spec n 16) as [Hlt | Hge].
    + unfold hex_value. cbn [fold_left]. rewrite hex_digit_value by lia. lia.
    + rewrite hex_value_app, hex_digit_value by (apply Z.mod_pos_bound; lia).
      rewrite IH; [pose proof (Z.div_mod n 16); lia |].
      rewrite Nat2Z.inj_succ, Z.pow_succ_r in Hn by lia.
      split; [apply Z.div_pos; lia | apply Z.div_lt_upper_bound; lia].
Qed.

Lemma hex_value_fill (k : nat) (l : list ascii) :
  hex_value (replicate k "0"%char ++ l) = hex_value l.
Proof.
  unfold hex_value. rewrite fold_left_app. f_equal.
  induction k as [| k IH]; [reflexivity | exact IH].
Qed.

Lemma print_word_value (w : Z) : word w -> hex_value (print_word w) = w.
Proof.
  intros Hw. unfold print_word, setw_fill. rewrite hex_value_fill.
  apply hex_digits_value. exact Hw.
Qed.

Lemma length_string_of_list_ascii (l : list ascii) :
  String.length (string_of_list_ascii l) = length l.
Proof. induction l as [| c l IH]; cbn; congruence. Qed.

(** Eight characters per state word, all of them lowercase hex digits. *)
Lemma print_state_shape (state : list Z) :
  String.length (print_state state) = (8 * length state)%nat
  /\ Forall (fun c => In c lowercase_hex) (list_ascii_of_string (print_state state)).
Proof.
  unfold print_state.
  rewrite length_string_of_list_ascii, list_ascii_of_string_of_list_ascii.
  induction state as [| w state [IHlen IHhex]]; cbn [map concat length].
  - split; [reflexivity | apply Forall_nil_2].
  - split.
    + rewrite length_app, length_print_word, IHlen. lia.
    + apply Forall_app_2; [apply print_word_lowercase | exact IHhex].
Qed.

(** * The claims *)

(** ** C5: the compression rounds *)

Lemma load_working_spec (state : list Z) :
  length state = 8%nat -> load_working state = Spec.initial_working state.
Proof.
  intros Hlen. unfold load_working, Spec.initial_working.
  rewrite !lookup_total_nth by (rewrite Hlen; lia). reflexivity.
Qed.

(** C5.  For every 8-word state and every 64-word schedule [W], the main
    loop computes, round after round, exactly the specification's rounds
    (T1, T2 and the shift of the eight working variables, with Ch, Maj,
    Sigma0 and Sigma1 as the specification defines them), and the state
    left by the compression is the old state with the working variables
    after round 63 added in, word by word, modulo 2^32. *)
Theorem compress_refines_spec (state W : list Z) :
  length state = 8%nat -> Forall word state -> length W = 64%nat ->
  (forall n : nat, (n <= 64)%nat ->
     foldl (round W) (load_working state) (seq 0 n)
     = Spec.after_rounds n W (Spec.initial_working state))
  /\ compress state W
     = Spec.accumulated state (Spec.after_rounds 64 W (Spec.initial_working state)).
Proof.
  intros Hlen Hwords HW.
  assert (Ha : word (va (load_working state))).
  { apply (Forall_lookup_total _ state 0 Hwords). rewrite Hlen. lia. }
  assert (He : word (ve (load_working state))).
  { apply (Forall_lookup_total _ state 4 Hwords). rewrite Hlen. lia. }
  assert (Hpre : forall n : nat, (n <= 64)%nat ->
            foldl (round W) (load_working state) (seq 0 n)
            = Spec.after_rounds n W (Spec.initial_working state)).
  { intros n Hn. rewrite <- (load_working_spec state Hlen).
    apply (rounds_prefix W HW); assumption. }
  split; [exact Hpre |].
  unfold compress, rounds. rewrite (Hpre 64%nat) by lia.
  apply accumulate_spec. exact Hlen.
Qed.

Lemma compress_refines_spec_witness :
  compress initial_state (replicate 64 0)
  = Spec.accumulated initial_state
      (Spec.after_rounds 64 (replicate 64 0) (Spec.initial_working initial_state)).
Proof.
  refine (proj2 (compress_refines_spec initial_state (replicate 64 0) _ _ _)).
  - reflexivity.
  - unfold initial_state.
    repeat (apply Forall_cons; split;
            [unfold Word32.in_range; rewrite modulus_eq; lia |]).
    apply Forall_nil_2.
  - reflexivity.
Defined.

(** ** C6: the message schedule *)

(** C6.  For every block of 16 words, the schedule has 64 words, its first
    16 are the block's, and every later one is
    (sigma1(W[t-2]) + W[t-7] + sigma0(W[t-15]) + W[t-16]) mod 2^32 with the
    specification's sigma0 and sigma1; the computation is total and every
    entry is a 32-bit word. *)
Theorem message_schedule_spec (block : list Z) :
  length block = 16%nat -> Forall word block ->
  length (message_schedule block) = 64%nat
  /\ Forall word (message_schedule block)
  /\ (forall t : nat, (t < 16)%nat ->
        nth t (message_schedule block) 0 = nth t block 0)
  /\ (forall t : nat, (16 <= t < 64)%nat ->
        nth t (message_schedule block) 0
        = (Spec.sigma1 (nth (t - 2) (message_schedule block) 0)
           + nth (t - 7) (message_schedule block) 0
           + Spec.sigma0 (nth (t - 15) (message_schedule block) 0)
           + nth (t - 16) (message_schedule block) 0) mod 2 ^ 32).
Proof.
  intros Hlen Hwords.
  destruct (message_schedule_inv block Hlen Hwords) as (HlenW & Htake & Hall & Hrec).
  split; [exact HlenW |].
  split; [rewrite take_ge in Hall by lia; exact Hall |].
  split.
  - intros t Ht. rewrite !nth_lookup.
    rewrite <- (lookup_take_lt (message_schedule block) 16 t) by exact Ht.
    rewrite Htake. reflexivity.
  - intros t Ht.
    rewrite <- !lookup_total_nth by lia. apply Hrec. lia.
Qed.

Lemma message_schedule_spec_witness :
  length (message_schedule (replicate 16 1)) = 64%nat
  /\ nth 16 (message_schedule (replicate 16 1)) 0
     = (Spec.sigma1 (nth 14 (message_schedule (replicate 16 1)) 0)
        + nth 9 (message_schedule (replicate 16 1)) 0
        + Spec.sigma0 (nth 1 (message_schedule (replicate 16 1)) 0)
        + nth 0 (message_schedule (replicate 16 1)) 0) mod 2 ^ 32.
Proof.
  assert (Hlen : length (replicate 16 1) = 16%nat) by reflexivity.
  assert (Hwords : Forall word (replicate 16 1)).
  { apply Forall_replicate. unfold Word32.in_range. rewrite modulus_eq. lia. }
  destruct (message_schedule_spec (replicate 16 1) Hlen Hwords) as (H1 & _ & _ & H4).
  split; [exact H1 |]. refine (H4 16%nat _). lia.
Defined.

(** ** C9: the transform leaves the block alone *)

(** C9.  Run as a store transformer on the caller's two arrays,
    [sha256_transform] leaves the block array exactly as it was; the state
    array is the only caller-visible object it changes, and it changes it to
    the value the functional reading of the transform computes (whatever the
    local array [W] held on entry). *)
Theorem transform_frame (s : store) :
  s_block (Stmt.sha256_transform s) = s_block s
  /\ (length (s_block s) = 16%nat -> Forall word (s_block s) ->
      length (s_W s) = 64%nat ->
      s_state (Stmt.sha256_transform s) = sha256_transform (s_state s) (s_block s)).
Proof.
  split; [apply stmt_block_unchanged | apply stmt_state].
Qed.

Lemma transform_frame_witness :
  let s := {| s_state := initial_state; s_block := replicate 16 5;
              s_W := replicate 64 7; s_vars := Working 0 0 0 0 0 0 0 0 |} in
  s_block (Stmt.sha256_transform s) = replicate 16 5
  /\ s_state (Stmt.sha256_transform s) = sha256_transform initial_state (replicate 16 5).
Proof.
  intros s. destruct (transform_frame s) as [Hblock Hstate].
  split; [exact Hblock |].
  apply Hstate.
  - reflexivity.
  - apply Forall_replicate. unfold Word32.in_range. rewrite modulus_eq. lia.
  - reflexivity.
Defined.

(** ** C10: the rotation amounts *)

Lemma rotation_amounts_range (n : Z) :
  In n rotation_amounts -> 1 <= n <= 31.
Proof.
  unfold rotation_amounts. cbn [In]. intros H.
  repeat (destruct H as [<- | H]; [lia |]). contradiction.
Qed.

Lemma Forall_concat_replicate {A : Type} (P : A -> Prop) (k : nat) (l : list A) :
  Forall P l -> Forall P (concat (replicate k l)).
Proof.
  intros Hl. induction k as [| k IH]; cbn [replicate concat].
  - apply Forall_nil_2.
  - apply Forall_app_2; assumption.
Qed.

Lemma In_concat_replicate {A : Type} (x : A) (k : nat) (l : list A) :
  In x l -> k <> 0%nat -> In x (concat (replicate k l)).
Proof.
  intros Hx Hk. destruct k as [| k]; [contradiction |].
  cbn [replicate concat]. apply in_app_iff. left. exact Hx.
Qed.

(** The rotation amounts logged by one transform are those of the source,
    all of them. *)
Lemma transform_log_amounts (n : Z) :
  In n (concat (replicate 48 [17; 19; 7; 18])
        ++ concat (replicate 64 [6; 11; 25; 2; 13; 22]))
  <-> In n rotation_amounts.
Proof.
  split.
  - revert n. apply (proj1 (List.Forall_forall (fun m => In m rotation_amounts) _)).
    apply Forall_app_2; apply Forall_concat_replicate.
    + repeat (apply Forall_cons; split; [cbn; tauto |]). apply Forall_nil_2.
    + repeat (apply Forall_cons; split; [cbn; tauto |]). apply Forall_nil_2.
  - intros Hn. apply in_app_iff.
    assert (Hcases : In n [17; 19; 7; 18] \/ In n [6; 11; 25; 2; 13; 22])
      by (unfold rotation_amounts in Hn; cbn [In] in *; tauto).
    destruct Hcases as [H | H]; [left | right];
      apply (In_concat_replicate _ _ _ H); discriminate.
Qed.

(** C10.  Every call of [ROTR] made by a run of [sha256_transform] (they all
    come from Sigma0, Sigma1, sigma0 and sigma1) passes one of the amounts
    2, 6, 7, 11, 13, 17, 18, 19, 22, 25, no shift count is out of range, and
    the checked run returns what the unchecked one returns.  Each of these
    amounts lies in 1..31, both shift counts [n] and [32 - n] are below 32,
    and on a 32-bit word [ROTR] is the right rotation by [n]: bit [i] of the
    result is bit [(i + n) mod 32] of the argument. *)
Theorem rotations_well_defined (state block : list Z) (x n : Z) :
  (exists log : list Z,
      Checked.sha256_transform state block = Some (sha256_transform state block, log)
      /\ forall m : Z, In m log <-> In m rotation_amounts)
  /\ (In n rotation_amounts ->
      1 <= n <= 31
      /\ Word32.shift_ok n = true
      /\ Word32.shift_ok (Word32.wrap (32 - n)) = true
      /\ Checked.ROTR x n = Some (ROTR x n, [n])
      /\ (word x ->
          word (ROTR x n)
          /\ ROTR x n = Spec.rotr x n
          /\ forall i : Z, 0 <= i < 32 ->
               Z.testbit (ROTR x n) i = Z.testbit x ((i + n) mod 32))).
Proof.
  split.
  - eexists. split; [apply checked_sha256_transform | apply transform_log_amounts].
  - intros Hn. apply rotation_amounts_range in Hn.
    assert (Hn' : 0 < n < 32) by lia.
    destruct (rotation_counts_ok n Hn') as [H1 H2].
    split; [exact Hn |]. split; [exact H1 |]. split; [exact H2 |].
    split; [apply checked_ROTR; exact Hn' |].
    intros Hx. split; [apply ROTR_word; assumption |].
    split; [apply ROTR_rotr; assumption |].
    intros i Hi. apply ROTR_bits; assumption.
Qed.

Lemma rotations_well_defined_witness :
  Checked.ROTR 0x80000001 2 = Some (ROTR 0x80000001 2, [2])
  /\ ROTR 0x80000001 2 = Spec.rotr 0x80000001 2.
Proof.
  destruct (rotations_well_defined initial_state (replicate 16 0) 0x80000001 2)
    as [_ Hrot].
  destruct Hrot as (_ & _ & _ & Hchk & Hword).
  - cbn. tauto.
  - split; [exact Hchk |]. apply Hword.
    unfold Word32.in_range. rewrite modulus_eq. lia.
Defined.

(** ** C1: the known vectors *)

(** C1 (as stated, refuted).  Even with the block array zeroed, the program
    does not print ba7816bf...f20015ad for "abc" (no length field is
    appended, so a different block is compressed), and for the empty message
    it does not print the 63-character string of the specification (it
    prints 64 characters). *)
Lemma known_vectors_not_printed :
  print_state (final_state (replicate 16 0) "abc")
    <> "ba7816bf8f01cfea414140de5dae2223b00361a396177a9cb410ff61f20015ad"
  /\ print_state (final_state (replicate 16 0) "")
    <> "e3b0c44298fc1c149afbf4c8996fb92427ae41e4649b934ca495991b7852b85".
Proof.
  split; apply String.eqb_neq; vm_compute; reflexivity.
Qed.

(** C1 (amended).  With the block array zeroed before assembly, the program
    exits with code 0 and prints, after the prompt,
    5b2beac7...eb4756ec for "abc" (the compression of the single block
    "abc", 0x80, zeros, without length field) and the 64-character digest
    e3b0c442...7852b855 for the empty message. *)
Theorem known_vectors_zeroed_block :
  main (replicate 16 0) "abc"
  = (0, prompt
        +:+ "5b2beac7edfc3d105f66435f0ddf6c8ba1a07ff784229bf07ac92a88eb4756ec"
        +:+ newline)
  /\ main (replicate 16 0) ""
     = (0, prompt
           +:+ "e3b0c44298fc1c149afbf4c8996fb92427ae41e4649b934ca495991b7852b855"
           +:+ newline).
Proof.
  split; vm_compute; reflexivity.
Qed.

(** ** C2: the padded sequence *)

(** C2 (as stated, refuted).  For "abc" the buffer handed to block assembly
    has 64 bytes, but its last eight bytes decode to 0, not to the bit
    length 24. *)
Lemma length_field_absent :
  Z.of_nat (length (padded_bytes (string_bytes "abc"))) mod 64 = 0
  /\ Spec.be_decode (Spec.final8 (padded_bytes (string_bytes "abc"))) = 0
  /\ Spec.be_decode (Spec.final8 (padded_bytes (string_bytes "abc")))
     <> 8 * Z.of_nat (String.length "abc").
Proof.
  split; [reflexivity |]. split; [reflexivity |]. vm_compute. discriminate.
Qed.

(** C2 (amended).  For every message of at most 64 bytes (longer ones never
    reach the padding), the buffer handed to block assembly is exactly 64
    bytes long: the message, then 0x80 when there is room for it, then
    zeros.  No length field is written: below 56 bytes the last eight bytes
    are zero and decode to 0, which is the bit length only for the empty
    message. *)
Theorem padded_buffer_shape (input : string) :
  (String.length input <= 64)%nat ->
  length (padded_bytes (string_bytes input)) = 64%nat
  /\ Z.of_nat (length (padded_bytes (string_bytes input))) mod 64 = 0
  /\ ((String.length input < 64)%nat ->
      padded_bytes (string_bytes input)
      = string_bytes input ++ 0x80 :: replicate (63 - String.length input) 0)
  /\ (String.length input = 64%nat ->
      padded_bytes (string_bytes input) = string_bytes input)
  /\ ((String.length input < 56)%nat ->
      Spec.final8 (padded_bytes (string_bytes input)) = replicate 8 0
      /\ Spec.be_decode (Spec.final8 (padded_bytes (string_bytes input))) = 0
      /\ (Spec.be_decode (Spec.final8 (padded_bytes (string_bytes input)))
          = 8 * Z.of_nat (String.length input)
          <-> String.length input = 0%nat)).
Proof.
  intros Hle.
  pose proof (length_string_bytes input) as Hlen.
  assert (H64 : length (padded_bytes (string_bytes input)) = 64%nat)
    by (apply length_padded_bytes; lia).
  split; [exact H64 |].
  split; [rewrite H64; reflexivity |].
  split; [intros Hlt; rewrite padded_bytes_short by lia; rewrite Hlen; reflexivity |].
  split; [intros Heq; apply padded_bytes_full; lia |].
  intros Hlt. rewrite final8_short by lia. rewrite be_decode_zeros.
  split; [reflexivity |]. split; [reflexivity | lia].
Qed.

Lemma padded_buffer_shape_witness :
  length (padded_bytes (string_bytes "abc")) = 64%nat
  /\ padded_bytes (string_bytes "abc")
     = string_bytes "abc" ++ 0x80 :: replicate (63 - String.length "abc") 0.
Proof.
  assert (Hle : (String.length "abc" <= 64)%nat) by (cbn; lia).
  destruct (padded_buffer_shape "abc" Hle) as (H1 & _ & H3 & _).
  split; [exact H1 |]. apply H3. cbn. lia.
Defined.

(** ** C3: which inputs are hashed *)

(** C3 (as stated, refuted).  A message of 65 bytes is rejected: the program
    prints the error message and exits with code 1, without a digest. *)
Lemma long_input_rejected :
  run (replicate 16 0)
      "aaaaaaaaaaaaaaaaaaaaaaaaaaaaaaaaaaaaaaaaaaaaaaaaaaaaaaaaaaaaaaaaa"
  = Rejected
  /\ main (replicate 16 0)
          "aaaaaaaaaaaaaaaaaaaaaaaaaaaaaaaaaaaaaaaaaaaaaaaaaaaaaaaaaaaaaaaaa"
     = (1, prompt +:+ too_long_message).
Proof.
  split; reflexivity.
Qed.

(** C3 (amended).  For every message of at most 64 bytes the program exits
    with code 0 and prints a digest: eight 32-bit words (32 bytes), printed
    as 64 lowercase hexadecimal digits.  Every longer message is rejected:
    the program prints an error message and exits with code 1. *)
Theorem hashed_iff_short (block0 : list Z) (input : string) :
  ((String.length input <= 64)%nat ->
   exists state : list Z,
     run block0 input = Hashed state
     /\ length state = 8%nat
     /\ Forall word state
     /\ main block0 input = (0, prompt +:+ print_state state +:+ newline)
     /\ String.length (print_state state) = 64%nat
     /\ Forall (fun c => In c lowercase_hex)
               (list_ascii_of_string (print_state state)))
  /\ ((64 < String.length input)%nat ->
      run block0 input = Rejected
      /\ main block0 input = (1, prompt +:+ too_long_message)).
Proof.
  unfold main, run. split; intros Hlen.
  - destruct (Nat.ltb_spec 64 (String.length input)) as [Hgt | _]; [lia |].
    exists (final_state block0 input).
    destruct (compress_words initial_state
                (message_schedule
                   (assemble_block block0 (padded_bytes (string_bytes input))))
                eq_refl) as [H8 Hwords].
    fold (sha256_transform initial_state
            (assemble_block block0 (padded_bytes (string_bytes input)))) in H8, Hwords.
    fold (final_state block0 input) in H8, Hwords.
    destruct (print_state_shape (final_state block0 input)) as [Hprint Hhex].
    rewrite H8 in Hprint.
    repeat (split; [first [reflexivity | assumption] |]). exact Hhex.
  - destruct (Nat.ltb_spec 64 (String.length input)) as [_ | Hle]; [| lia].
    split; reflexivity.
Qed.

Lemma hashed_iff_short_witness :
  exists state : list Z,
    run (replicate 16 0) "abc" = Hashed state
    /\ length state = 8%nat
    /\ Forall word state
    /\ main (replicate 16 0) "abc" = (0, prompt +:+ print_state state +:+ newline)
    /\ String.length (print_state state) = 64%nat
    /\ Forall (fun c => In c lowercase_hex)
              (list_ascii_of_string (print_state state)).
Proof.
  refine (proj1 (hashed_iff_short (replicate 16 0) "abc") _). cbn. lia.
Defined.

(** ** C4: a message of 56 bytes *)

(** C4 (as stated, refuted).  For a message of 56 bytes the padded sequence
    has 64 bytes, not 128. *)
Lemma no_second_block :
  length (padded_bytes
            (string_bytes "abcdefghijklmnopqrstuvwxyzabcdefghijklmnopqrstuvwxyzabcd"))
  = 64%nat
  /\ length (padded_bytes
               (string_bytes "abcdefghijklmnopqrstuvwxyzabcdefghijklmnopqrstuvwxyzabcd"))
     <> 128%nat.
Proof.
  split; [reflexivity | vm_compute; discriminate].
Qed.

(** C4 (amended).  For every message of exactly 56 bytes the padded sequence
    is one block of 64 bytes: the message, the byte 0x80 and seven zero
    bytes.  There is no second block and no length field. *)
Theorem padding_at_56 (input : string) :
  String.length input = 56%nat ->
  padded_bytes (string_bytes input)
  = string_bytes input ++ [0x80; 0; 0; 0; 0; 0; 0; 0]
  /\ length (padded_bytes (string_bytes input)) = 64%nat.
Proof.
  intros H56. pose proof (length_string_bytes input) as Hlen.
  split.
  - rewrite padded_bytes_short by lia. rewrite Hlen, H56. reflexivity.
  - apply length_padded_bytes. lia.
Qed.

Lemma padding_at_56_witness :
  padded_bytes
    (string_bytes "abcdefghijklmnopqrstuvwxyzabcdefghijklmnopqrstuvwxyzabcd")
  = string_bytes "abcdefghijklmnopqrstuvwxyzabcdefghijklmnopqrstuvwxyzabcd"
    ++ [0x80; 0; 0; 0; 0; 0; 0; 0].
Proof.
  refine (proj1 (padding_at_56
                   "abcdefghijklmnopqrstuvwxyzabcdefghijklmnopqrstuvwxyzabcd" _)).
  reflexivity.
Defined.

(** ** C7: block assembly *)

(** C7 (the code at a failing input).  The array [block] is declared without
    initialiser and filled with [|=].  When its first cell held 0xffffffff
    before the loop, word 0 of the block assembled for "abc" is 0xffffffff,
    whereas the big-endian assembly of bytes 0..3 ("abc", 0x80) is
    0x61626380. *)
Theorem assembly_keeps_prior_bits :
  assemble_block (0xffffffff :: replicate 15 0)
                 (padded_bytes (string_bytes "abc")) !!! 0%nat
  = 0xffffffff
  /\ Spec.be_word (padded_bytes (string_bytes "abc") !!! 0%nat)
                  (padded_bytes (string_bytes "abc") !!! 1%nat)
                  (padded_bytes (string_bytes "abc") !!! 2%nat)
                  (padded_bytes (string_bytes "abc") !!! 3%nat)
     = 0x61626380.
Proof.
  split; vm_compute; reflexivity.
Qed.

(** ** C8: determinism *)

(** C8 (the code at a failing input).  Two runs on the same input "abc"
    print different digests when the storage of the uninitialised array
    [block] differs between them. *)
Theorem digest_depends_on_prior_block :
  main (replicate 16 0) "abc" <> main (0xffffffff :: replicate 15 0) "abc".
Proof.
  intros Heq. apply (f_equal snd) in Heq. revert Heq.
  apply String.eqb_neq. vm_compute. reflexivity.
Qed.

(** * Further properties of the code *)

(** ** Words and their bits *)

(** Two words with the same 32 low bits are equal. *)
Lemma word_eq_bits (x y : Z) :
  word x -> word y ->
  (forall i : Z, 0 <= i < 32 -> Z.testbit x i = Z.testbit y i) -> x = y.
Proof.
  intros Hx Hy Hbits. apply Z.bits_inj'. intros i Hi.
  destruct (Z.lt_ge_cases i 32) as [Hlt | Hge].
  - apply Hbits. lia.
  - rewrite (word_bits_high x i Hx Hge), (word_bits_high y i Hy Hge). reflexivity.
Qed.

Lemma be_word_word (b0 b1 b2 b3 : Z) :
  byte_range b0 -> byte_range b1 -> byte_range b2 -> byte_range b3 ->
  word (Spec.be_word b0 b1 b2 b3).
Proof.
  unfold byte_range, Spec.be_word, Word32.in_range. intros H0 H1 H2 H3.
  rewrite !Z.shiftl_mul_pow2, modulus_eq by lia.
  change (2 ^ 24) with 16777216. change (2 ^ 16) with 65536.
  change (2 ^ 8) with 256. lia.
Qed.

(** ** Block assembly (lines 161-166) *)

(** X1.  Whatever the array [block] held before the loop, word [i] of the
    assembled block is that prior content [or]-ed with the big-endian word
    of bytes 4i..4i+3: no bit of the prior content is ever cleared, the
    array keeps its 16 cells, and a cell that held 0 ends up holding exactly
    the big-endian word, which is a 32-bit word. *)
Theorem assemble_block_prior_content (block0 bytes : list Z) (i : nat) :
  length block0 = 16%nat -> length bytes = 64%nat -> Forall byte_range bytes ->
  (i < 16)%nat ->
  length (assemble_block block0 bytes) = 16%nat
  /\ assemble_block block0 bytes !!! i
     = Z.lor (block0 !!! i)
             (Spec.be_word (bytes !!! (4 * i)%nat) (bytes !!! (4 * i + 1)%nat)
                           (bytes !!! (4 * i + 2)%nat) (bytes !!! (4 * i + 3)%nat))
  /\ Z.land (block0 !!! i) (assemble_block block0 bytes !!! i) = block0 !!! i
  /\ word (Spec.be_word (bytes !!! (4 * i)%nat) (bytes !!! (4 * i + 1)%nat)
                        (bytes !!! (4 * i + 2)%nat) (bytes !!! (4 * i + 3)%nat))
  /\ (block0 !!! i = 0 ->
      assemble_block block0 bytes !!! i
      = Spec.be_word (bytes !!! (4 * i)%nat) (bytes !!! (4 * i + 1)%nat)
                     (bytes !!! (4 * i + 2)%nat) (bytes !!! (4 * i + 3)%nat)).
Proof.
  intros Hb Hlen Hrange Hi.
  pose proof (assemble_block_word bytes block0 i Hb Hlen Hrange Hi) as Hword.
  split; [apply length_assemble_block; exact Hb |].
  split; [exact Hword |].
  split.
  - rewrite Hword. apply Z.bits_inj'. intros k Hk.
    rewrite Z.land_spec, Z.lor_spec.
    destruct (Z.testbit (block0 !!! i) k); reflexivity.
  - split.
    + apply be_word_word; apply Forall_lookup_total; (exact Hrange || lia).
    + intros Hzero. rewrite Hword, Hzero. apply Z.lor_0_l.
Qed.

Lemma assemble_block_prior_content_witness :
  assemble_block (replicate 16 0x0f) (replicate 64 0x41) !!! 3%nat
  = Z.lor (replicate 16 0x0f !!! 3%nat)
          (Spec.be_word (replicate 64 0x41 !!! (4 * 3)%nat)
                        (replicate 64 0x41 !!! (4 * 3 + 1)%nat)
                        (replicate 64 0x41 !!! (4 * 3 + 2)%nat)
                        (replicate 64 0x41 !!! (4 * 3 + 3)%nat)).
Proof.
  refine (proj1 (proj2 (assemble_block_prior_content
                          (replicate 16 0x0f) (replicate 64 0x41) 3 _ _ _ _))).
  - reflexivity.
  - reflexivity.
  - apply Forall_replicate. unfold byte_range. lia.
  - lia.
Defined.

(** With a zeroed array, byte [4i+j] is read back from word [i] by shifting
    right by [24 - 8j] and keeping the low eight bits. *)
Lemma assembled_byte_back (bytes : list Z) (i j : nat) :
  length bytes = 64%nat -> Forall byte_range bytes ->
  (i < 16)%nat -> (j < 4)%nat ->
  Z.shiftr (assemble_block (replicate 16 0) bytes !!! i) (24 - 8 * Z.of_nat j) mod 256
  = bytes !!! (4 * i + j)%nat.
Proof.
  intros Hlen Hrange Hi Hj.
  rewrite assemble_block_word by (assumption || reflexivity).
  rewrite lookup_total_replicate_2 by exact Hi. rewrite Z.lor_0_l.
  assert (H0 : byte_range (bytes !!! (4 * i)%nat))
    by (apply Forall_lookup_total; [exact Hrange | lia]).
  assert (H1 : byte_range (bytes !!! (4 * i + 1)%nat))
    by (apply Forall_lookup_total; [exact Hrange | lia]).
  assert (H2 : byte_range (bytes !!! (4 * i + 2)%nat))
    by (apply Forall_lookup_total; [exact Hrange | lia]).
  assert (H3 : byte_range (bytes !!! (4 * i + 3)%nat))
    by (apply Forall_lookup_total; [exact Hrange | lia]).
  unfold byte_range, Spec.be_word in *.
  rewrite !Z.shiftl_mul_pow2 by lia.
  change (2 ^ 24) with 16777216. change (2 ^ 16) with 65536.
  change (2 ^ 8) with 256.
  destruct j as [| [| [| [| j]]]]; [| | | | lia];
    cbn [Z.of_nat Pos.of_succ_nat Pos.succ Z.mul Pos.mul Z.sub Z.add Z.opp
         Z.pos_sub Pos.pred_double Pos.add Z.double Z.succ_double Z.pred_double];
    rewrite ?Nat.add_0_r.
  - rewrite Z.shiftr_div_pow2 by lia. change (2 ^ 24) with 16777216.
    Z.div_mod_to_equations. lia.
  - rewrite Z.shiftr_div_pow2 by lia. change (2 ^ 16) with 65536.
    Z.div_mod_to_equations. lia.
  - rewrite Z.shiftr_div_pow2 by lia. change (2 ^ 8) with 256.
    Z.div_mod_to_equations. lia.
  - rewrite Z.shiftr_div_pow2 by lia. change (2 ^ 0) with 1.
    Z.div_mod_to_equations. lia.
Qed.

(** X2.  Round trip of the assembly on a zeroed array: byte [4i+j] of the
    buffer is recovered from word [i] of the block as
    [(word >> (24 - 8j)) mod 256]. *)
Theorem assemble_block_round_trip (bytes : list Z) (i j : nat) :
  length bytes = 64%nat -> Forall byte_range bytes ->
  (i < 16)%nat -> (j < 4)%nat ->
  Z.shiftr (assemble_block (replicate 16 0) bytes !!! i) (24 - 8 * Z.of_nat j) mod 256
  = bytes !!! (4 * i + j)%nat.
Proof. apply assembled_byte_back. Qed.

Lemma assemble_block_round_trip_witness :
  Z.shiftr (assemble_block (replicate 16 0) (padded_bytes (string_bytes "abc"))
              !!! 0%nat)
           (24 - 8 * Z.of_nat 3) mod 256
  = padded_bytes (string_bytes "abc") !!! (4 * 0 + 3)%nat.
Proof.
  refine (assemble_block_round_trip (padded_bytes (string_bytes "abc")) 0 3 _ _ _ _).
  - reflexivity.
  - apply padded_bytes_range. apply string_bytes_range.
  - lia.
  - lia.
Defined.

(** X3.  On a zeroed array the assembly loses nothing: two 64-byte buffers
    that assemble to the same block are the same buffer. *)
Theorem assemble_block_injective (bytes1 bytes2 : list Z) :
  length bytes1 = 64%nat -> Forall byte_range bytes1 ->
  length bytes2 = 64%nat -> Forall byte_range bytes2 ->
  assemble_block (replicate 16 0) bytes1 = assemble_block (replicate 16 0) bytes2 ->
  bytes1 = bytes2.
Proof.
  intros Hl1 Hr1 Hl2 Hr2 Heq.
  apply (list_eq_same_length bytes1 bytes2 64 Hl2 Hl1).
  intros k y1 y2 Hk H1 H2.
  rewrite <- (list_lookup_total_correct bytes1 k y1 H1).
  rewrite <- (list_lookup_total_correct bytes2 k y2 H2).
  pose proof (Nat.div_mod_eq k 4) as Hdiv.
  assert (Hi : (k / 4 < 16)%nat) by (apply Nat.Div0.div_lt_upper_bound; lia).
  assert (Hj : (k mod 4 < 4)%nat) by (apply Nat.mod_upper_bound; lia).
  rewrite Hdiv.
  rewrite <- (assembled_byte_back bytes1 (k / 4) (k mod 4) Hl1 Hr1 Hi Hj).
  rewrite <- (assembled_byte_back bytes2 (k / 4) (k mod 4) Hl2 Hr2 Hi Hj).
  rewrite Heq. reflexivity.
Qed.

Lemma assemble_block_injective_witness :
  padded_bytes (string_bytes "abc") = padded_bytes (string_bytes "abc").
Proof.
  refine (assemble_block_injective
            (padded_bytes (string_bytes "abc")) (padded_bytes (string_bytes "abc"))
            _ _ _ _ _).
  - reflexivity.
  - apply padded_bytes_range. apply string_bytes_range.
  - reflexivity.
  - apply padded_bytes_range. apply string_bytes_range.
  - reflexivity.
Defined.

(** ** The rotation and the round functions (lines 80-87) *)

(** X4.  [ROTR] is defined exactly for the amounts 1..31: with [n = 0] the
    left shift [x << (32 - n)] is a shift by the full width, with [n >= 32]
    the right shift is, and both are undefined.  In particular [ROTR(x, 0)]
    and [ROTR(x, 32)] are not rotations by nothing. *)
Theorem ROTR_defined_iff (x n : Z) :
  word n ->
  (Checked.ROTR x n <> None <-> 1 <= n <= 31)
  /\ Checked.ROTR x 0 = None
  /\ Checked.ROTR x 32 = None.
Proof.
  intros Hn. split; [apply checked_ROTR_defined; exact Hn |].
  split; reflexivity.
Qed.

Lemma ROTR_defined_iff_witness :
  Checked.ROTR 0xdeadbeef 31 <> None <-> 1 <= 31 <= 31.
Proof.
  refine (proj1 (ROTR_defined_iff 0xdeadbeef 31 _)).
  unfold Word32.in_range. rewrite modulus_eq. lia.
Defined.

(** X5.  Rotating right by [n] and then by [32 - n] gives the word back, so
    [ROTR] by a fixed amount never maps two words to the same word. *)
Theorem ROTR_round_trip (x y n : Z) :
  word x -> word y -> 0 < n < 32 ->
  ROTR (ROTR x n) (32 - n) = x
  /\ (ROTR x n = ROTR y n -> x = y).
Proof.
  intros Hx Hy Hn.
  assert (Hback : forall z : Z, word z -> ROTR (ROTR z n) (32 - n) = z).
  { intros z Hz. apply word_eq_bits.
    - apply ROTR_word; [apply ROTR_word; assumption | lia].
    - exact Hz.
    - intros i Hi.
      rewrite ROTR_bits by (try apply ROTR_word; assumption || lia).
      rewrite ROTR_bits by (try apply Z.mod_pos_bound; assumption || lia).
      f_equal. Z.div_mod_to_equations. lia. }
  split; [apply Hback; exact Hx |].
  intros Heq. rewrite <- (Hback x Hx), <- (Hback y Hy), Heq. reflexivity.
Qed.

Lemma ROTR_round_trip_witness :
  ROTR (ROTR 0x80000001 7) (32 - 7) = 0x80000001.
Proof.
  refine (proj1 (ROTR_round_trip 0x80000001 0x80000001 7 _ _ _));
    unfold Word32.in_range; rewrite ?modulus_eq; lia.
Defined.

Lemma ROTR_lxor (x y n : Z) :
  word x -> word y -> 0 < n < 32 ->
  ROTR (Z.lxor x y) n = Z.lxor (ROTR x n) (ROTR y n).
Proof.
  intros Hx Hy Hn. apply word_eq_bits.
  - apply ROTR_word; [apply lxor_word; assumption | exact Hn].
  - apply lxor_word; apply ROTR_word; assumption.
  - intros i Hi.
    rewrite Z.lxor_spec, !ROTR_bits by (try apply lxor_word; assumption).
    apply Z.lxor_spec.
Qed.

Lemma lxor_shuffle (a b c a' b' c' : Z) :
  Z.lxor (Z.lxor (Z.lxor a a') (Z.lxor b b')) (Z.lxor c c')
  = Z.lxor (Z.lxor (Z.lxor a b) c) (Z.lxor (Z.lxor a' b') c').
Proof.
  apply Z.bits_inj'. intros i _. rewrite !Z.lxor_spec.
  destruct (Z.testbit a i), (Z.testbit b i), (Z.testbit c i),
    (Z.testbit a' i), (Z.testbit b' i), (Z.testbit c' i); reflexivity.
Qed.

(** X6.  The four sigma functions are linear over XOR on 32-bit words: the
    image of [x ^ y] is the XOR of the images of [x] and [y]. *)
Theorem sigma_functions_xor_linear (x y : Z) :
  word x -> word y ->
  Sigma0 (Z.lxor x y) = Z.lxor (Sigma0 x) (Sigma0 y)
  /\ Sigma1 (Z.lxor x y) = Z.lxor (Sigma1 x) (Sigma1 y)
  /\ sigma0 (Z.lxor x y) = Z.lxor (sigma0 x) (sigma0 y)
  /\ sigma1 (Z.lxor x y) = Z.lxor (sigma1 x) (sigma1 y).
Proof.
  intros Hx Hy. unfold Sigma0, Sigma1, sigma0, sigma1, SHR, Word32.shr.
  rewrite !ROTR_lxor by (assumption || lia).
  rewrite !Z.shiftr_lxor.
  repeat split; apply lxor_shuffle.
Qed.

Lemma sigma_functions_xor_linear_witness :
  Sigma0 (Z.lxor 0x6a09e667 0xbb67ae85)
  = Z.lxor (Sigma0 0x6a09e667) (Sigma0 0xbb67ae85).
Proof.
  refine (proj1 (sigma_functions_xor_linear 0x6a09e667 0xbb67ae85 _ _));
    unfold Word32.in_range; rewrite modulus_eq; lia.
Defined.

Lemma not_bits (x i : Z) :
  0 <= i < 32 -> Z.testbit (Word32.not x) i = negb (Z.testbit x i).
Proof.
  intros Hi. unfold Word32.not, Word32.wrap, Word32.modulus.
  rewrite Z.testbit_mod_pow2, Z.lnot_spec by lia.
  destruct (Z.ltb_spec i 32); [reflexivity | lia].
Qed.

(** X7.  [Ch] chooses bit by bit: where [x] has a 1 the result takes the bit
    of [y], where [x] has a 0 the bit of [z]; on words the result is a
    word. *)
Theorem Ch_chooses (x y z i : Z) :
  (0 <= i < 32 ->
   Z.testbit (Ch x y z) i = if Z.testbit x i then Z.testbit y i else Z.testbit z i)
  /\ (word x -> word y -> word z -> word (Ch x y z)).
Proof.
  split.
  - intros Hi. unfold Ch. rewrite Z.lxor_spec, !Z.land_spec, not_bits by exact Hi.
    destruct (Z.testbit x i), (Z.testbit y i), (Z.testbit z i); reflexivity.
  - intros Hx Hy Hz. unfold Ch. apply lxor_word.
    + apply land_word; [exact Hx | apply Hy].
    + apply land_word; [apply wrap_word | apply Hz].
Qed.

Lemma Ch_chooses_witness :
  Z.testbit (Ch 0x0000ffff 0x12345678 0x9abcdef0) 4
  = if Z.testbit 0x0000ffff 4 then Z.testbit 0x12345678 4
    else Z.testbit 0x9abcdef0 4.
Proof.
  refine (proj1 (Ch_chooses 0x0000ffff 0x12345678 0x9abcdef0 4) _). lia.
Defined.

(** X8.  [Maj] is the bitwise majority: a result bit is 1 exactly when at
    least two of the three argument bits are 1; on words the result is a
    word. *)
Theorem Maj_majority (x y z i : Z) :
  Z.testbit (Maj x y z) i
  = (Z.testbit x i && Z.testbit y i) || (Z.testbit x i && Z.testbit z i)
    || (Z.testbit y i && Z.testbit z i)
  /\ (word x -> word y -> word z -> word (Maj x y z)).
Proof.
  split.
  - unfold Maj. rewrite !Z.lxor_spec, !Z.land_spec.
    destruct (Z.testbit x i), (Z.testbit y i), (Z.testbit z i); reflexivity.
  - intros Hx Hy Hz. unfold Maj.
    repeat apply lxor_word; apply land_word; (assumption || apply Hy || apply Hz).
Qed.

Lemma Maj_majority_witness :
  word (Maj 0x6a09e667 0xbb67ae85 0x3c6ef372).
Proof.
  refine (proj2 (Maj_majority 0x6a09e667 0xbb67ae85 0x3c6ef372 0) _ _ _);
    unfold Word32.in_range; rewrite modulus_eq; lia.
Defined.

(** ** The main loop (lines 110-122) *)

Lemma add32_cancel_r (p q r : Z) :
  word p -> word q -> add32 p r = add32 q r -> p = q.
Proof.
  unfold Word32.in_range, Word32.add, Word32.wrap. rewrite modulus_eq.
  intros Hp Hq Heq. Z.div_mod_to_equations. lia.
Qed.

Lemma add32_cancel_l (p q r : Z) :
  word p -> word q -> add32 r p = add32 r q -> p = q.
Proof.
  unfold Word32.in_range, Word32.add, Word32.wrap. rewrite modulus_eq.
  intros Hp Hq Heq. Z.div_mod_to_equations. lia.
Qed.

(** A round maps working variables that are words to words. *)
Lemma round_words (W : list Z) (v : working) (t : nat) :
  Forall word (Spec.working_list v) ->
  Forall word (Spec.working_list (round W v t)).
Proof.
  destruct v as [a b c d e f g h]. unfold Spec.working_list. cbn [va vb vc vd ve vf vg vh].
  intros Hall.
  apply Forall_cons in Hall as [Ha Hall]. apply Forall_cons in Hall as [Hb Hall].
  apply Forall_cons in Hall as [Hc Hall]. apply Forall_cons in Hall as [Hd Hall].
  apply Forall_cons in Hall as [He Hall]. apply Forall_cons in Hall as [Hf Hall].
  apply Forall_cons in Hall as [Hg Hall].
  unfold round. cbn [va vb vc vd ve vf vg vh].
  repeat (apply Forall_cons; split; [first [apply add32_word | assumption] |]).
  apply Forall_nil_2.
Qed.

(** One round is injective on working variables that are words: the old
    [a, b, c, e, f, g] are copied, and [d] and [h] are recovered from the
    two sums. *)
Lemma round_injective (W : list Z) (t : nat) (v v' : working) :
  Forall word (Spec.working_list v) -> Forall word (Spec.working_list v') ->
  round W v t = round W v' t -> v = v'.
Proof.
  destruct v as [a b c d e f g h], v' as [a' b' c' d' e' f' g' h'].
  unfold Spec.working_list. cbn [va vb vc vd ve vf vg vh].
  intros Hall Hall'.
  apply Forall_cons in Hall as [_ Hall]. apply Forall_cons in Hall as [_ Hall].
  apply Forall_cons in Hall as [_ Hall]. apply Forall_cons in Hall as [Hd Hall].
  apply Forall_cons in Hall as [_ Hall]. apply Forall_cons in Hall as [_ Hall].
  apply Forall_cons in Hall as [_ Hall]. apply Forall_cons in Hall as [Hh _].
  apply Forall_cons in Hall' as [_ Hall']. apply Forall_cons in Hall' as [_ Hall'].
  apply Forall_cons in Hall' as [_ Hall']. apply Forall_cons in Hall' as [Hd' Hall'].
  apply Forall_cons in Hall' as [_ Hall']. apply Forall_cons in Hall' as [_ Hall'].
  apply Forall_cons in Hall' as [_ Hall']. apply Forall_cons in Hall' as [Hh' _].
  unfold round. cbn [va vb vc vd ve vf vg vh].
  intros Heq. injection Heq as Hsum Ha Hb Hc Hd_sum He Hf Hg.
  subst a' b' c' e' f' g'.
  apply add32_cancel_r in Hsum; [| apply add32_word | apply add32_word].
  rewrite Hsum in Hd_sum.
  apply add32_cancel_r in Hd_sum; [| exact Hd | exact Hd'].
  do 3 (apply add32_cancel_r in Hsum; [| apply add32_word | apply add32_word]).
  apply add32_cancel_r in Hsum; [| exact Hh | exact Hh'].
  subst d' h'. reflexivity.
Qed.

Lemma loop_injective (W : list Z) (l : list nat) (v v' : working) :
  Forall word (Spec.working_list v) -> Forall word (Spec.working_list v') ->
  foldl (round W) v l = foldl (round W) v' l -> v = v'.
Proof.
  revert v v'. induction l as [| t l IH]; intros v v' Hv Hv' Heq; cbn [foldl] in Heq.
  - exact Heq.
  - apply (round_injective W t); [exact Hv | exact Hv' |].
    apply IH; [apply round_words; exact Hv | apply round_words; exact Hv' | exact Heq].
Qed.

(** X9.  For a fixed schedule the 64 rounds never merge two states: working
    variables that differ before the loop differ after it (each round keeps
    32-bit words and can be undone).  Only the final addition into the state
    stands between the digest and its input state. *)
Theorem rounds_injective (W : list Z) (v v' : working) :
  Forall word (Spec.working_list v) -> Forall word (Spec.working_list v') ->
  Forall word (Spec.working_list (rounds W v))
  /\ (rounds W v = rounds W v' -> v = v').
Proof.
  intros Hv Hv'. split.
  - unfold rounds. generalize (seq 0 64). intros l. revert v Hv.
    induction l as [| t l IH]; intros v Hv; cbn [foldl]; [exact Hv |].
    apply IH. apply round_words. exact Hv.
  - apply loop_injective; assumption.
Qed.

Lemma rounds_injective_witness :
  Forall word (Spec.working_list (rounds (replicate 64 0) (load_working initial_state))).
Proof.
  refine (proj1 (rounds_injective (replicate 64 0) (load_working initial_state)
                   (load_working initial_state) _ _));
    unfold Spec.working_list, load_working, initial_state;
    cbn [va vb vc vd ve vf vg vh];
    repeat (apply Forall_cons; split;
            [unfold Word32.in_range; rewrite modulus_eq; vm_compute; split; congruence |]);
    apply Forall_nil_2.
Defined.

(** ** The transform as a whole (lines 91-133) *)

(** X10.  [sha256_transform] never reads a local before writing it: two
    runs that start from the same state and block end in the same store,
    whatever the locals [W] and [a .. h] held on entry. *)
Theorem transform_ignores_locals (s1 s2 : store) :
  s_state s1 = s_state s2 -> s_block s1 = s_block s2 ->
  length (s_block s1) = 16%nat -> Forall word (s_block s1) ->
  length (s_W s1) = 64%nat -> length (s_W s2) = 64%nat ->
  Stmt.sha256_transform s1 = Stmt.sha256_transform s2.
Proof.
  intros Hstate Hblock Hlen Hwords HW1 HW2.
  rewrite !stmt_transform. rewrite <- Hstate, <- Hblock.
  rewrite (schedule_from_tail_irrelevant _ Hlen Hwords _ HW1).
  rewrite (schedule_from_tail_irrelevant _ Hlen Hwords _ HW2).
  reflexivity.
Qed.

Lemma transform_ignores_locals_witness :
  Stmt.sha256_transform
    {| s_state := initial_state; s_block := replicate 16 5;
       s_W := replicate 64 7; s_vars := Working 0 0 0 0 0 0 0 0 |}
  = Stmt.sha256_transform
      {| s_state := initial_state; s_block := replicate 16 5;
         s_W := replicate 64 9; s_vars := Working 1 2 3 4 5 6 7 8 |}.
Proof.
  refine (transform_ignores_locals _ _ _ _ _ _ _ _).
  - reflexivity.
  - reflexivity.
  - reflexivity.
  - apply Forall_replicate. unfold Word32.in_range. rewrite modulus_eq.
    cbn [s_block]. lia.
  - reflexivity.
  - reflexivity.
Defined.

(** X11.  The state stays eight 32-bit words: from any eight-cell state and
    any block the transform returns eight cells, each below 2^32. *)
Theorem sha256_transform_keeps_words (state block : list Z) :
  length state = 8%nat ->
  length (sha256_transform state block) = 8%nat
  /\ Forall word (sha256_transform state block).
Proof.
  intros Hlen. unfold sha256_transform. apply compress_words. exact Hlen.
Qed.

Lemma sha256_transform_keeps_words_witness :
  length (sha256_transform initial_state (replicate 16 0xffffffff)) = 8%nat
  /\ Forall word (sha256_transform initial_state (replicate 16 0xffffffff)).
Proof.
  refine (sha256_transform_keeps_words initial_state (replicate 16 0xffffffff) _).
  reflexivity.
Defined.

(** ** Padding and its collisions (lines 143-158) *)

Lemma string_bytes_of_bytes (bytes : list Z) :
  Forall byte_range bytes ->
  string_bytes (string_of_list_ascii (map (fun b => ascii_of_N (Z.to_N b)) bytes))
  = bytes.
Proof.
  intros Hrange. unfold string_bytes. rewrite list_ascii_of_string_of_list_ascii.
  induction Hrange as [| b bytes Hb _ IH]; cbn [map]; [reflexivity |].
  rewrite IH. f_equal. unfold byte_range in Hb.
  rewrite N_ascii_embedding by lia. lia.
Qed.

Lemma padded_bytes_idempotent (input : list Z) :
  (length input <= 64)%nat ->
  padded_bytes (padded_bytes input) = padded_bytes input.
Proof.
  intros Hle. apply padded_bytes_full. apply length_padded_bytes. exact Hle.
Qed.

(** X12.  The padding is not injective.  An input shorter than 64
    characters and the 64-character input spelling out its padded form (the
    input, the character 0x80, then NUL characters) are different inputs, are
    both accepted, and make the program print the same digest, whatever the
    array [block] held: a full buffer gets no marker and no length is ever
    appended.  Such a second input exists for every short input. *)
Theorem short_input_collides (block0 : list Z) (input : string) :
  (String.length input < 64)%nat ->
  exists input' : string,
    string_bytes input' = padded_bytes (string_bytes input)
    /\ String.length input' = 64%nat
    /\ input' <> input
    /\ run block0 input' = run block0 input
    /\ main block0 input' = main block0 input.
Proof.
  intros Hlt.
  pose proof (length_string_bytes input) as Hlen.
  assert (Hrange : Forall byte_range (padded_bytes (string_bytes input)))
    by (apply padded_bytes_range, string_bytes_range).
  exists (string_of_list_ascii
            (map (fun b => ascii_of_N (Z.to_N b)) (padded_bytes (string_bytes input)))).
  set (input' := string_of_list_ascii _).
  assert (Hbytes : string_bytes input' = padded_bytes (string_bytes input))
    by (apply string_bytes_of_bytes; exact Hrange).
  assert (Hlen' : String.length input' = 64%nat).
  { rewrite <- length_string_bytes, Hbytes. apply length_padded_bytes. lia. }
  assert (Hrun : run block0 input' = run block0 input).
  { unfold run. rewrite Hlen'.
    destruct (Nat.ltb_spec 64 (String.length input)) as [Hgt | _]; [lia |].
    cbn [Nat.ltb Nat.leb]. unfold final_state.
    rewrite Hbytes, padded_bytes_idempotent by lia. reflexivity. }
  split; [exact Hbytes |]. split; [exact Hlen' |]. split.
  - intros Heq. rewrite Heq in Hlen'. lia.
  - split; [exact Hrun |]. unfold main. rewrite Hrun. reflexivity.
Qed.

Lemma short_input_collides_witness :
  exists input' : string,
    string_bytes input' = padded_bytes (string_bytes "abc")
    /\ String.length input' = 64%nat
    /\ input' <> "abc"%string
    /\ run (replicate 16 0) input' = run (replicate 16 0) "abc"
    /\ main (replicate 16 0) input' = main (replicate 16 0) "abc".
Proof.
  refine (short_input_collides (replicate 16 0) "abc" _). cbn. lia.
Defined.

(** ** Printing (lines 178-181) *)

(** X13.  Printing a word and reading the digits back is the identity: a
    32-bit word is printed as exactly eight lowercase hexadecimal digits
    whose value is the word, so none of its digits is dropped and two
    different words are printed differently. *)
Theorem print_word_round_trip (w w' : Z) :
  word w -> word w' ->
  length (print_word w) = 8%nat
  /\ Forall (fun c => In c lowercase_hex) (print_word w)
  /\ hex_value (print_word w) = w
  /\ (print_word w = print_word w' -> w = w').
Proof.
  intros Hw Hw'.
  split; [apply length_print_word |].
  split; [apply print_word_lowercase |].
  split; [apply print_word_value; exact Hw |].
  intros Heq.
  rewrite <- (print_word_value w Hw), <- (print_word_value w' Hw'), Heq.
  reflexivity.
Qed.

Lemma print_word_round_trip_witness :
  hex_value (print_word 0x0000beef) = 0x0000beef.
Proof.
  refine (proj1 (proj2 (proj2 (print_word_round_trip 0x0000beef 0x0000beef _ _))));
    unfold Word32.in_range; rewrite modulus_eq; lia.
Defined.

Lemma concat_print_word_injective (state1 state2 : list Z) :
  Forall word state1 -> Forall word state2 ->
  concat (map print_word state1) = concat (map print_word state2) ->
  state1 = state2.
Proof.
  intros H1. revert state2.
  induction H1 as [| w1 state1 Hw1 _ IH]; intros state2 H2 Heq.
  - destruct H2 as [| w2 state2 Hw2 _]; [reflexivity |].
    apply (f_equal (@length ascii)) in Heq.
    cbn [map concat length] in Heq. rewrite length_app, length_print_word in Heq.
    discriminate Heq.
  - destruct H2 as [| w2 state2 Hw2 H2].
    + apply (f_equal (@length ascii)) in Heq.
      cbn [map concat length] in Heq. rewrite length_app, length_print_word in Heq.
      discriminate Heq.
    + cbn [map concat] in Heq.
      apply app_inj_1 in Heq as [Hhead Htail];
        [| rewrite !length_print_word; reflexivity].
      f_equal.
      * rewrite <- (print_word_value w1 Hw1), <- (print_word_value w2 Hw2), Hhead.
        reflexivity.
      * apply IH; assumption.
Qed.

(** X14.  The printed digest determines the state: two lists of 32-bit
    words that print as the same text are the same list. *)
Theorem print_state_injective (state1 state2 : list Z) :
  Forall word state1 -> Forall word state2 ->
  print_state state1 = print_state state2 -> state1 = state2.
Proof.
  intros H1 H2 Heq. unfold print_state in Heq.
  apply (f_equal list_ascii_of_string) in Heq.
  rewrite !list_ascii_of_string_of_list_ascii in Heq.
  apply concat_print_word_injective; assumption.
Qed.

Lemma print_state_injective_witness :
  initial_state = initial_state.
Proof.
  refine (print_state_injective initial_state initial_state _ _ _).
  - unfold initial_state.
    repeat (apply Forall_cons; split;
            [unfold Word32.in_range; rewrite modulus_eq; lia |]).
    apply Forall_nil_2.
  - unfold initial_state.
    repeat (apply Forall_cons; split;
            [unfold Word32.in_range; rewrite modulus_eq; lia |]).
    apply Forall_nil_2.
  - reflexivity.
Defined.
